(** * dripp3r: a G-code dripper for a Marlin serial port

    A shallow embedding of [dripp3r.go] and the properties of its line
    sources, of its transport reader and of its control loop.

    Go values are modelled as follows.
    - [[]byte] is [list byte]; a Go [string] is a Rocq [string]; the
      conversion [[]byte(s)] is [to_bytes].
    - An [error] value is [option error]: [None] is [nil].
    - A channel is the list of values it will still deliver; a receive
      takes the head, and a receive on the empty list is a receive on a
      closed channel.
    - A goroutine that only produces into a channel is the function
      computing that list. *)

From Equations Require Import Equations.
From Stdlib Require Import Strings.String Strings.Byte.
From Stdlib Require Import List Arith ZArith Lia Bool.
Import ListNotations.
Local Open Scope string_scope.
Local Open Scope list_scope.

(** ** Bytes and errors *)

Definition bytes := list byte.

(** [[]byte(s)] *)
Definition to_bytes (s : string) : bytes := list_byte_of_string s.

(** [len(s) == 0] *)
Definition is_empty {A} (s : list A) : bool :=
  match s with [] => true | _ :: _ => false end.

Inductive error : Type :=
| EOF                         (* io.EOF *)
| IOError (msg : string).     (* any other error value *)

(** ** The parts of the Go library the program calls *)

Module golib.

(** An [io.Reader] over a file or a buffer: the bytes it still holds and
    the error it reports once they are used up ([io.EOF] for a file read
    to its end). *)
Record reader : Type := Reader { pending : bytes; at_end : error }.

Definition NewBuffer (b : bytes) : reader := Reader b EOF.

(** [ReadBytes(delim)]: the data up to and including the first [delim];
    when the input ends first, the data read so far and the error.
    The result is (data, err, the reader afterwards). *)
Fixpoint read_until (delim : byte) (at_end : error) (p : bytes)
  : bytes * option error * bytes :=
  match p with
  | [] => ([], Some at_end, [])
  | c :: p' =>
      if Byte.eqb c delim then ([c], None, p')
      else let '(s, err, rest) := read_until delim at_end p' in
           (c :: s, err, rest)
  end.

Definition ReadBytes (r : reader) (delim : byte)
  : bytes * option error * reader :=
  let '(s, err, rest) := read_until delim (at_end r) (pending r) in
  (s, err, Reader rest (at_end r)).

(** [bytes.IndexByte(s, c)]; [None] stands for [-1]. *)
Fixpoint IndexByte (s : bytes) (c : byte) : option nat :=
  match s with
  | [] => None
  | x :: s' =>
      if Byte.eqb x c then Some 0
      else option_map S (IndexByte s' c)
  end.

(** [unicode.IsSpace] on the ASCII range: tab, LF, VT, FF, CR, space. *)
Definition asciiSpace (c : byte) : bool :=
  Byte.eqb c x09 || Byte.eqb c x0a || Byte.eqb c x0b ||
  Byte.eqb c x0c || Byte.eqb c x0d || Byte.eqb c x20.

(** The white space beyond ASCII, by its UTF-8 encoding:
    U+0085 and U+00A0 take two bytes; U+1680, U+2000..U+200A, U+2028,
    U+2029, U+202F, U+205F and U+3000 take three. *)
Definition space2 (a b : byte) : bool :=
  Byte.eqb a xc2 && (Byte.eqb b x85 || Byte.eqb b xa0).

Definition space3 (a b c : byte) : bool :=
  (Byte.eqb a xe1 && Byte.eqb b x9a && Byte.eqb c x80) ||
  (Byte.eqb a xe2 && Byte.eqb b x80 &&
     (Nat.leb (Byte.to_nat c) 138 (* 0x80..0x8a *) && Nat.leb 128 (Byte.to_nat c)
      || Byte.eqb c xa8 || Byte.eqb c xa9 || Byte.eqb c xaf)) ||
  (Byte.eqb a xe2 && Byte.eqb b x81 && Byte.eqb c x9f) ||
  (Byte.eqb a xe3 && Byte.eqb b x80 && Byte.eqb c x80).

(** Drop the white-space runes a byte string starts with. *)
Fixpoint TrimLeftSpace (s : bytes) : bytes :=
  match s with
  | [] => []
  | a :: s1 =>
      if asciiSpace a then TrimLeftSpace s1
      else
        match s1 with
        | [] => s
        | b :: s2 =>
            if space2 a b then TrimLeftSpace s2
            else
              match s2 with
              | [] => s
              | c :: s3 => if space3 a b c then TrimLeftSpace s3 else s
              end
        end
  end.

(** The same from the end, on the reversed string: a rune's bytes are
    met last byte first. *)
Fixpoint TrimLeftSpace_rev (s : bytes) : bytes :=
  match s with
  | [] => []
  | c :: s1 =>
      if asciiSpace c then TrimLeftSpace_rev s1
      else
        match s1 with
        | [] => s
        | b :: s2 =>
            if space2 b c then TrimLeftSpace_rev s2
            else
              match s2 with
              | [] => s
              | a :: s3 => if space3 a b c then TrimLeftSpace_rev s3 else s
              end
        end
  end.

Definition TrimRightSpace (s : bytes) : bytes :=
  rev (TrimLeftSpace_rev (rev s)).

(** [bytes.TrimSpace]: all leading and trailing white space, as defined
    by Unicode, sliced off. *)
Definition TrimSpace (s : bytes) : bytes :=
  TrimRightSpace (TrimLeftSpace s).

End golib.

Import golib.

(** The newline and the comment mark. *)
Definition LF : byte := x0a.
Definition semicolon : byte := x3b.

(** ** Line Source: [gcodeLines] *)

(** One pass of the loop body on the chunk [s] just read: cut at the first
    [';'], trim. *)
Definition strip_comment (s : bytes) : bytes :=
  match IndexByte s semicolon with
  | Some i => firstn i s
  | None => s
  end.

Definition clean (s : bytes) : bytes := TrimSpace (strip_comment s).

Lemma read_until_shrinks delim e p s rest :
  read_until delim e p = (s, None, rest) -> length rest < length p.
Proof.
  revert s rest. induction p as [|c p IH]; simpl; intros s rest H.
  - discriminate.
  - destruct (Byte.eqb c delim).
    + inversion H; subst. lia.
    + destruct (read_until delim e p) as [[s' err'] rest'].
      inversion H; subst. specialize (IH _ _ eq_refl). lia.
Qed.

(** A value together with the equation that names it, so that a recursive
    call can use what a read returned. *)
Definition inspect {A} (a : A) : {b : A | a = b} := exist _ a eq_refl.

(** The [for err == nil] loop of [gcodeLines]: the lines sent on [out], in
    order, and the value of [err] when the loop is left. *)
Equations? gcodeLines_loop (r : reader) : list bytes * option error
  by wf (List.length (pending r)) lt :=
  gcodeLines_loop r with inspect (ReadBytes r LF) => {
    | exist _ (s, Some e, _) _ =>                 (* last pass: err != nil *)
        if is_empty s then ([], Some e)            (* break *)
        else if is_empty (clean s) then ([], Some e)
        else ([clean s], Some e)                   (* out <- s *)
    | exist _ (s, None, r') Hread =>
        if is_empty s then ([], None)              (* break *)
        else if is_empty (clean s) then gcodeLines_loop r'   (* continue *)
        else let '(more, err) := gcodeLines_loop r' in
             (clean s :: more, err)                (* out <- s *)
    }.
Proof.
  all: unfold ReadBytes in Hread.
  all: destruct (read_until LF (at_end r) (pending r)) as [[s0 e0] rest] eqn:E.
  all: inversion Hread; subst; simpl.
  all: eapply read_until_shrinks; eauto.
Qed.

(** How the producer goroutine of a line source ends: it closes [out], or
    it stops the whole process with [log.Fatal(err)]. *)
Inductive source_end : Type :=
| Closed
| Fatal (err : option error).

(** [if err != io.EOF { log.Fatal(err) }], then the deferred [close(out)]. *)
Definition end_of_source (err : option error) : source_end :=
  match err with
  | Some EOF => Closed
  | _ => Fatal err
  end.

(** [gcodeLines(f)]: what the channel it returns delivers, and how its
    goroutine ends. *)
Definition gcodeLines (f : reader) : list bytes * source_end :=
  let '(out, err) := gcodeLines_loop f in (out, end_of_source err).

(** A command file on disk, read without failure up to its end. *)
Definition os_File (content : bytes) : reader := Reader content EOF.

(** *** The Line Source as the specification words it *)

(** The physical lines of a file: the text between newlines, the text after
    the last newline being a line when there is any. *)
Fixpoint physical_lines_from (cur : bytes) (p : bytes) : list bytes :=
  match p with
  | [] => if is_empty cur then [] else [cur]
  | c :: p' =>
      if Byte.eqb c LF then cur :: physical_lines_from [] p'
      else physical_lines_from (cur ++ [c]) p'
  end.

Definition physical_lines (content : bytes) : list bytes :=
  physical_lines_from [] content.

(** A line truncated at its first [';']. *)
Fixpoint before_semicolon (s : bytes) : bytes :=
  match s with
  | [] => []
  | c :: s' => if Byte.eqb c semicolon then [] else c :: before_semicolon s'
  end.

Definition command_lines (content : bytes) : list bytes :=
  filter (fun s => negb (is_empty s))
         (map (fun l => TrimSpace (before_semicolon l)) (physical_lines content)).


(** ** Fixed Sequence Source: [stopGCode] *)

Definition stop_gcode : bytes := to_bytes "M107
M104 S0
M140 S0
G1 Z50
M84 Z E
".

(** [ln[:len(ln)-1]] *)
Definition drop_last (ln : bytes) : bytes := firstn (List.length ln - 1) ln.

(** [if len(ln) > 1 { out <- ln[:len(ln)-1] }], in front of what is sent
    later. *)
Definition send_line (ln : bytes) (more : list bytes) : list bytes :=
  if Nat.ltb 1 (List.length ln) then drop_last ln :: more else more.

(** The [for err == nil] loop of [stopGCode] on the buffer [buf]: the lines
    sent on [out] and the value of [err] when the loop is left. *)
Equations? stopGCode_loop (buf : reader) : list bytes * option error
  by wf (List.length (pending buf)) lt :=
  stopGCode_loop buf with inspect (ReadBytes buf LF) => {
    | exist _ (ln, Some e, _) _ =>
        (send_line ln [], Some e)                  (* err != nil: break *)
    | exist _ (ln, None, buf') Hread =>
        let '(more, err) := stopGCode_loop buf' in
        (send_line ln more, err)
    }.
Proof.
  unfold ReadBytes in Hread.
  destruct (read_until LF (at_end buf) (pending buf)) as [[s0 e0] rest] eqn:E.
  inversion Hread; subst; simpl.
  eapply read_until_shrinks; eauto.
Qed.

(** [stopGCode()]: what the fresh channel delivers before it is closed, and
    the error printed by [log.Print] when the loop ended on another error
    than [io.EOF]. *)
Definition stopGCode_of (src : bytes) : list bytes * option (option error) :=
  let '(out, err) := stopGCode_loop (NewBuffer src) in
  (out, match err with Some EOF => None | _ => Some err end).

Definition stopGCode : list bytes * option (option error) :=
  stopGCode_of stop_gcode.

(** ** Transport Reader: [serialRecv] and [serialRecvChan] *)

(** A [bufio.Scanner] on the port: the lines [Scan] will still find, and
    what [Err] reports once [Scan] has returned false ([None] at a clean
    end of the transport). *)
Record scanner : Type := Scanner { tokens : list string; scan_err : option error }.

(** What the reader goroutine does, in order. *)
Inductive rx_action : Type :=
| Scan (ln : option string)    (* [scan.Scan()]: a line, or false *)
| Echo (ln : string)        (* [fmt.Printf("<< %s\n", ln)] *)
| Ready (err : option error).  (* [out <- err] *)

(** [serialRecv(scan)] entered with [lines] collected so far: the result
    [(lines, err)], the scanner afterwards, and the scans made. *)
Fixpoint serialRecv_from (scan_err : option error) (toks : list string)
    (lines : list string)
  : list string * option error * list string * list rx_action :=
  match toks with
  | [] =>
      (lines, Some (match scan_err with None => EOF | Some e => e end), [],
       [Scan None])
  | ln :: toks' =>
      if String.eqb ln "ok" then (lines, None, toks', [Scan (Some ln)])
      else
        let '(res, err, rest, t) :=
          serialRecv_from scan_err toks'
            (if String.eqb ln "" then lines else lines ++ [ln]) in
        (res, err, rest, Scan (Some ln) :: t)
  end.

Definition serialRecv (scan : scanner)
  : list string * option error * scanner * list rx_action :=
  let '(lines, err, rest, t) :=
    serialRecv_from (scan_err scan) (tokens scan) [] in
  (lines, err, Scanner rest (scan_err scan), t).

Lemma serialRecv_from_shrinks e toks : forall lines res rest t,
  serialRecv_from e toks lines = (res, None, rest, t) ->
  List.length rest < List.length toks.
Proof.
  induction toks as [|ln toks IH]; simpl; intros lines res rest t H.
  - discriminate.
  - destruct (String.eqb ln "ok").
    + inversion H; subst. lia.
    + destruct (serialRecv_from e toks _) as [[[res' err'] rest'] t'] eqn:E.
      inversion H; subst. apply IH in E. lia.
Qed.

(** The [for err == nil] loop of [serialRecvChan]. *)
Equations? serialRecvChan_loop (scan : scanner) : list rx_action
  by wf (List.length (tokens scan)) lt :=
  serialRecvChan_loop scan with inspect (serialRecv scan) => {
    | exist _ (res, Some e, _, t) _ =>
        t ++ map Echo res ++ [Ready (Some e)]
    | exist _ (res, None, scan', t) Hrecv =>
        t ++ map Echo res ++ Ready None :: serialRecvChan_loop scan'
    }.
Proof.
  unfold serialRecv in Hrecv.
  destruct (serialRecv_from (scan_err scan) (tokens scan) [])
    as [[[res0 err0] rest0] t0] eqn:E.
  inversion Hrecv; subst; simpl.
  eapply serialRecv_from_shrinks; eauto.
Qed.

(** [serialRecvChan(r)]: the goroutine primes the pump, then loops. *)
Definition serialRecvChan (r : scanner) : list rx_action :=
  Ready None :: serialRecvChan_loop r.

(** What the channel [serial_ready] delivers before it is closed. *)
Definition pulses (t : list rx_action) : list (option error) :=
  flat_map (fun a => match a with Ready err => [err] | _ => [] end) t.

(** What the terminal shows of the incoming traffic. *)
Definition shown (t : list rx_action) : list string :=
  flat_map (fun a => match a with Echo ln => [ln] | _ => [] end) t.

(** ** Elapsed time *)

Module duration.

Local Open Scope Z_scope.

(** A [time.Duration] is an [int64] count of nanoseconds. *)
Definition minDuration : Z := - 2 ^ 63.
Definition maxDuration : Z := 2 ^ 63 - 1.
Definition Second : Z := 1000000000.

(** [int64] arithmetic wraps around. *)
Definition wrap (z : Z) : Z := (z + 2 ^ 63) mod 2 ^ 64 - 2 ^ 63.

(** [time.Since(start)] read when the clock shows [now]: the difference,
    kept within the range of a [Duration]. *)
Definition Since (start now : Z) : Z :=
  Z.max minDuration (Z.min maxDuration (now - start)).

(** [lessThanHalf(x, y)]: [x+x < y] on [uint64]. *)
Definition lessThanHalf (x y : Z) : bool :=
  ((x + x) mod 2 ^ 64) <? (y mod 2 ^ 64).

(** [d.Round(m)]: [d] rounded to the nearest multiple of [m], halfway
    values away from zero. *)
Definition Round (d m : Z) : Z :=
  if m <=? 0 then d
  else
    let r := Z.rem d m in
    if d <? 0 then
      let r := - r in
      if lessThanHalf r m then wrap (d + r)
      else
        let d1 := wrap (d - m + r) in
        if d1 <? d then d1 else minDuration
    else
      if lessThanHalf r m then wrap (d - r)
      else
        let d1 := wrap (d + m - r) in
        if d1 >? d then d1 else maxDuration.

End duration.

(** ** Control Menu *)

Inductive ctrlChoice : Type :=
| ctrlContinue
| ctrlStop
| ctrlAbort
| ctrlHackerMode.

(** What the program writes to the terminal and to the log. *)
Inductive message : Type :=
| menu_text                       (* the "-- CTRL MENU" option list *)
| ports_listing                   (* what [listPorts()] prints *)
| invalid_entry (ans : string)    (* "invalid entry: %#v" *)
| drip_file                       (* "-- DRIP FILE" *)
| drip_stop_codes                 (* "-- DRIP JOB STOP CODES" *)
| abort                           (* "-- ABORT" *)
| hacker_mode                     (* "-- HACKER MODE: Type Gcodes now." *)
| log_start                       (* "Start drip." *)
| log_error (err : error)         (* [log.Println(err)] *)
| log_stop (elapsed : Z).         (* "Stop drip. Elapsed:" and the time *)

(** The channel the local variable [gcode] of [loop] refers to: the one
    file channel [d.gcode_file], shared with the dripper, or a channel made
    by a call of [stopGCode], which nothing else refers to and which is
    kept here with the lines it still holds. *)
Inductive feed : Type :=
| file_feed
| stop_feed (rest : list bytes).

(** What the control loop does, in order: its receives, its sends and its
    output. *)
Inductive action : Type :=
| SigNotify                                (* [signal.Notify], in [catchSig] *)
| SigReset                                 (* [signal.Reset], in [dropSig] *)
| RecvUser (line : string)              (* [<-d.user_input] *)
| RecvSig                               (* [<-d.sig_chan] *)
| RecvReady (err : option error) (ok : bool)   (* [<-d.serial_ready] *)
| RecvFile (line : option bytes)        (* [<-d.gcode_file]; [None]: closed *)
| RecvStop (line : option bytes)        (* [<-] a [stopGCode] channel *)
| Send (line : bytes)                   (* [d.serial_send <- line] *)
| Close                                 (* [close(d.serial_send)] *)
| Say (m : message).                    (* [fmt.Print*] and [log.Print*] *)

(** [controlMenu(userin)] after its flush, given the lines the operator
    goes on to type: the choice it returns, if one of them is a choice,
    what it printed and received, and the lines it left unread.  Without a
    choice the dialog stays blocked on [<-userin]; that channel is never
    closed by [userInput]. *)
Fixpoint controlMenu (userin : list string)
  : option ctrlChoice * list action * list string :=
  match userin with
  | [] => (None, [Say menu_text], [])
  | ans :: rest =>
      let here := [Say menu_text; RecvUser ans] in
      if String.eqb ans "c" then (Some ctrlContinue, here, rest)
      else if String.eqb ans "s" then (Some ctrlStop, here, rest)
      else if String.eqb ans "a" then (Some ctrlAbort, here, rest)
      else if String.eqb ans "h" then (Some ctrlHackerMode, here, rest)
      else
        let '(c, t, rest') := controlMenu rest in
        (c,
         here ++ Say (if String.eqb ans "l" then ports_listing
                      else invalid_entry ans) :: t,
         rest')
  end.

(** ** Control Loop *)

(** The fields of [dripper] that [loop] reads and writes.  [gcode_file] is
    what the file channel will still deliver. *)
Record dripper : Type := Dripper {
  gcode_file : list bytes;
  d_hack_queue : list string;      (* the field [d.hack_queue] *)
  ready : bool
}.

(** [newDripper(port, gcode)]: the channel of [gcodeLines(gcode)], an empty
    queue, not ready. *)
Definition newDripper (gcode : reader) : dripper :=
  Dripper (fst (gcodeLines gcode)) [] false.

(** The dripper together with the local variables of [loop]. *)
Record vars : Type := Vars {
  d : dripper;
  hack_queue : list string;        (* [var hack_queue []string] *)
  hack_mode : bool;                (* [var hack_mode bool] *)
  gcode : feed                     (* [gcode := d.gcode_file] *)
}.

(** The ways out of the [for] loop other than going round again. *)
Inductive exit : Type :=
| break_Loop
| panic_index (i n : nat)   (* index out of range [i] with length [n] *)
| in_menu.                  (* blocked in [controlMenu] *)

Inductive outcome (A : Type) : Type :=
| Val (a : A)
| Exit (e : exit).
Arguments Val {A} a.
Arguments Exit {A} e.

(** A command of the loop: from the variables to a value or an exit, the
    variables afterwards and what was done. *)
Definition M (A : Type) : Type := vars -> outcome A * vars * list action.

Definition ret {A} (a : A) : M A := fun s => (Val a, s, []).

Definition bind {A B} (m : M A) (f : A -> M B) : M B :=
  fun s =>
    match m s with
    | (Val a, s1, t1) => let '(r, s2, t2) := f a s1 in (r, s2, t1 ++ t2)
    | (Exit e, s1, t1) => (Exit e, s1, t1)
    end.

Declare Scope drip_scope.
Delimit Scope drip_scope with drip.
Notation "x <- m ;; k" := (bind m (fun x => k))
  (at level 61, m at next level, right associativity) : drip_scope.
Notation "m ;; k" := (bind m (fun _ => k))
  (at level 61, right associativity) : drip_scope.
Local Open Scope drip_scope.

Definition leave {A} (e : exit) : M A := fun s => (Exit e, s, []).
Definition do (a : action) : M unit := fun s => (Val tt, s, [a]).
Definition do_all (t : list action) : M unit := fun s => (Val tt, s, t).
Definition get {A} (f : vars -> A) : M A := fun s => (Val (f s), s, []).
Definition update (f : vars -> vars) : M unit := fun s => (Val tt, f s, []).

Definition set_ready (b : bool) (s : vars) : vars :=
  Vars (Dripper (gcode_file (d s)) (d_hack_queue (d s)) b)
       (hack_queue s) (hack_mode s) (gcode s).
Definition set_d_hack_queue (q : list string) (s : vars) : vars :=
  Vars (Dripper (gcode_file (d s)) q (ready (d s)))
       (hack_queue s) (hack_mode s) (gcode s).
Definition set_gcode_file (c : list bytes) (s : vars) : vars :=
  Vars (Dripper c (d_hack_queue (d s)) (ready (d s)))
       (hack_queue s) (hack_mode s) (gcode s).
Definition set_hack_mode (b : bool) (s : vars) : vars :=
  Vars (d s) (hack_queue s) b (gcode s).
Definition set_gcode (g : feed) (s : vars) : vars :=
  Vars (d s) (hack_queue s) (hack_mode s) g.

(** [q[i]] on a slice: a run-time panic out of range. *)
Definition index (q : list string) (i : nat) : M string :=
  match nth_error q i with
  | Some x => ret x
  | None => leave (panic_index i (List.length q))
  end.

(** [d.send(line)] *)
Definition send (line : bytes) : M unit :=
  update (set_ready false) ;;
  do (Send line).

Definition catchSig : M unit := do SigNotify.
Definition dropSig : M unit := do SigReset.

(** [<-gcode]: a receive on the channel [gcode] refers to. *)
Definition recv_gcode : M (option bytes) :=
  g <- get gcode ;;
  match g with
  | file_feed =>
      c <- get (fun s => gcode_file (d s)) ;;
      match c with
      | [] => do (RecvFile None) ;; ret None
      | line :: c' =>
          update (set_gcode_file c') ;; do (RecvFile (Some line)) ;;
          ret (Some line)
      end
  | stop_feed c =>
      match c with
      | [] => do (RecvStop None) ;; ret None
      | line :: c' =>
          update (set_gcode (stop_feed c')) ;; do (RecvStop (Some line)) ;;
          ret (Some line)
      end
  end.

(** What the [select] of [loop] receives. *)
Inductive event : Type :=
| user_line (line : string)
    (* a line on [d.user_input] *)
| interrupt (stale answers : list string)
    (* a signal on [d.sig_chan]; [stale] are the lines the flush of the
       menu finds buffered, [answers] the lines typed into the menu *)
| pulse (err : option error)
    (* a value on [d.serial_ready] *)
| ready_closed.
    (* [d.serial_ready] found closed *)

(** [case line := <-d.user_input] *)
Definition on_user_input (line : string) : M unit :=
  do (RecvUser line) ;;
  hm <- get hack_mode ;;
  if hm then
    rdy <- get (fun s => ready (d s)) ;;
    if rdy then send (to_bytes line)
    else
      q <- get (fun s => d_hack_queue (d s)) ;;
      update (set_d_hack_queue (q ++ [line]))
  else ret tt.

(** [flushUserInput(in)] finding [stale] buffered. *)
Definition flushUserInput (stale : list string) : M unit :=
  do_all (map RecvUser stale).

(** [case <-d.sig_chan] *)
Definition on_signal (stale answers : list string) : M unit :=
  do RecvSig ;;
  dropSig ;;
  update (set_hack_mode false) ;;
  flushUserInput stale ;;
  let '(choice, t, _) := controlMenu answers in
  do_all t ;;
  match choice with
  | None => leave in_menu
  | Some ctrlContinue =>
      do (Say drip_file) ;; update (set_gcode file_feed) ;; catchSig
  | Some ctrlStop =>
      do (Say drip_stop_codes) ;;
      update (set_gcode (stop_feed (fst stopGCode))) ;; catchSig
  | Some ctrlAbort =>
      do (Say abort) ;; leave break_Loop
  | Some ctrlHackerMode =>
      do (Say hacker_mode) ;; update (set_hack_mode true) ;; catchSig
  end.

(** [case err, ok := <-d.serial_ready] *)
Definition on_serial_ready (err : option error) (ok : bool) : M unit :=
  do (RecvReady err ok) ;;
  update (set_ready true) ;;
  match err with
  | Some e => do (Say (log_error e)) ;; leave break_Loop
  | None =>
      if negb ok then leave break_Loop
      else
        hm <- get hack_mode ;;
        if hm then
          q <- get (fun s => d_hack_queue (d s)) ;;
          if Nat.ltb 0 (List.length q) then
            lq <- get hack_queue ;;
            line <- index lq 0 ;;
            send (to_bytes line) ;;
            update (set_d_hack_queue (tl q))
          else ret tt
        else
          r <- recv_gcode ;;
          match r with
          | None => leave break_Loop
          | Some line => send line
          end
  end.

(** One turn of the [select]. *)
Definition turn (ev : event) : M unit :=
  match ev with
  | user_line line => on_user_input line
  | interrupt stale answers => on_signal stale answers
  | pulse err => on_serial_ready err true
  | ready_closed => on_serial_ready None false
  end.

(** The [for { select {...} }] of [loop] along the events [evs]; when they
    are used up the loop waits in its [select]. *)
Fixpoint turns (evs : list event) : M unit :=
  match evs with
  | [] => ret tt
  | ev :: evs' => turn ev ;; turns evs'
  end.

(** How a run of [loop] stands after the events given to it. *)
Inductive status : Type :=
| waiting                      (* in the [select] *)
| in_dialog                    (* in the menu *)
| stopped                      (* [loop] has returned *)
| crashed (i n : nat).         (* the process died of a panic *)

(** [d.loop()], started when the clock shows [start], along [evs]; [now] is
    what the clock shows when the loop is left. *)
Definition loop (start now : Z) (d0 : dripper) (evs : list event)
  : status * vars * list action :=
  let '(r, s, t) :=
    (catchSig ;; do (Say log_start) ;; turns evs)
      (Vars d0 [] false file_feed) in
  match r with
  | Val _ => (waiting, s, t)
  | Exit in_menu => (in_dialog, s, t)
  | Exit break_Loop =>
      (stopped, s,
       t ++ [Close;
             Say (log_stop (duration.Round (duration.Since start now)
                                           duration.Second));
             SigReset])
  | Exit (panic_index i n) => (crashed i n, s, t ++ [SigReset])
  end.

(** The lines handed to the Transport Writer, in order. *)
Definition sent (t : list action) : list bytes :=
  flat_map (fun a => match a with Send line => [line] | _ => [] end) t.

(** The lines taken from the file channel, in order. *)
Definition from_file (t : list action) : list bytes :=
  flat_map (fun a => match a with RecvFile (Some line) => [line] | _ => [] end) t.

(** ** The properties, as checks on what was done *)

(** The error of the last pulse of the reader: the scanner's own, or
    [io.EOF] at a clean end. *)
Definition final_error (r : scanner) : error :=
  match scan_err r with None => EOF | Some e => e end.

(** The reply blocks the transport completes: its lines equal to ["ok"]. *)
Definition completed_blocks (toks : list string) : nat :=
  List.length (filter (fun ln => String.eqb ln "ok") toks).

(** The pacing of the reader after its primer.  [last] is the result of
    the latest scan since the latest pulse, if there was one.  A pulse
    without error needs that scan to have found ["ok"]; a pulse with an
    error needs it to have found the end, and is the last thing done. *)
Fixpoint pulses_follow_replies (last : option (option string))
    (t : list rx_action) : bool :=
  match t with
  | [] => true
  | Scan x :: t' => pulses_follow_replies (Some x) t'
  | Echo _ :: t' => pulses_follow_replies last t'
  | Ready None :: t' =>
      match last with
      | Some (Some ln) => String.eqb ln "ok" && pulses_follow_replies None t'
      | _ => false
      end
  | Ready (Some _) :: t' =>
      match last with
      | Some None => is_empty t'
      | _ => false
      end
  end.

(** The Readiness Flag as the trace of the loop tells it: true after a
    pulse was received, false after a send, and a send with the flag false
    is a failure ([None]). *)
Fixpoint flag_after (flag : bool) (t : list action) : option bool :=
  match t with
  | [] => Some flag
  | RecvReady _ _ :: t' => flag_after true t'
  | Send _ :: t' => if flag then flag_after false t' else None
  | _ :: t' => flag_after flag t'
  end.

Definition is_RecvReady (a : action) : bool :=
  match a with RecvReady _ _ => true | _ => false end.

Definition is_interrupt (ev : event) : bool :=
  match ev with interrupt _ _ => true | _ => false end.

(** The parts of the result of a command. *)
Definition result_of {A} (x : outcome A * vars * list action) : outcome A :=
  fst (fst x).
Definition vars_of {A} (x : outcome A * vars * list action) : vars :=
  snd (fst x).
Definition trace_of {A} (x : outcome A * vars * list action) : list action :=
  snd x.

(** The choice a menu dialog ends with. *)
Definition choice_of (answers : list string) : option ctrlChoice :=
  fst (fst (controlMenu answers)).

(** The five lines of the stop sequence. *)
Definition stop_lines : list bytes :=
  map to_bytes ["M107"; "M104 S0"; "M140 S0"; "G1 Z50"; "M84 Z E"].

(** An action of the handling of an interrupt: the signal and its
    handler, a line read from the operator, a message. *)
Definition is_dialog (a : action) : bool :=
  match a with
  | RecvSig | SigReset | SigNotify | RecvUser _ | Say _ => true
  | _ => false
  end.

(** A state to try the loop on: the stop sequence is being sent, two lines
    of the file are unread, and one line typed in hacker mode is still
    queued. *)
Definition paused_vars : vars :=
  Vars (Dripper [to_bytes "G1 X10"; to_bytes "G1 X20"] ["M105"] false)
       [] false (stop_feed [to_bytes "M84 Z E"]).

(** A dripper on a file of two lines. *)
Definition two_line_dripper : dripper :=
  newDripper (os_File (to_bytes "G28
G1 X10
")).

(** ** Transport Writer: [serialSendChan] *)

(** What the writer goroutine does, in order.  The results of
    [port.Write] are not looked at by the code. *)
Inductive tx_action : Type :=
| EchoOut (line : bytes)     (* [fmt.Printf(">> %s\n", line)] *)
| PortWrite (b : bytes).     (* [port.Write(b)] *)

(** The goroutine of [serialSendChan(port)], given the lines the channel
    [in] delivers before it is closed or left alone. *)
Fixpoint serialSendChan (handoff : list bytes) : list tx_action :=
  match handoff with
  | [] => []
  | line :: rest =>
      EchoOut line :: PortWrite line :: PortWrite [LF] :: serialSendChan rest
  end.

(** The bytes put on the port, in order. *)
Definition wire (t : list tx_action) : bytes :=
  flat_map (fun a => match a with PortWrite b => b | EchoOut _ => [] end) t.

(** ** Interactive Input Source: [userInput] *)

(** The goroutine of [userInput(f)]: it makes a new scanner each time the
    one before has reached an end of input; [sessions] are these scanners
    in turn.  The result is the lines put on [out], and the error given to
    [log.Fatal] if a scanner fails.  [out] is never closed. *)
Fixpoint userInput (sessions : list scanner) : list string * option error :=
  match sessions with
  | [] => ([], None)
  | s :: rest =>
      match scan_err s with
      | Some e => (tokens s, Some e)
      | None => let '(more, err) := userInput rest in (tokens s ++ more, err)
      end
  end.

(** ** More checks on what was done *)

(** Lines written one after the other, each with its newline. *)
Definition join_lines (lines : list bytes) : bytes :=
  flat_map (fun l => l ++ [LF]) lines.

(** A byte string starts with a white-space rune. *)
Definition starts_with_space (s : bytes) : bool :=
  match s with
  | [] => false
  | a :: s1 =>
      asciiSpace a ||
      match s1 with
      | [] => false
      | b :: s2 =>
          space2 a b ||
          match s2 with
          | [] => false
          | c :: _ => space3 a b c
          end
      end
  end.

(** The same for the reversed string: it ends with a white-space rune. *)
Definition starts_with_space_rev (s : bytes) : bool :=
  match s with
  | [] => false
  | c :: s1 =>
      asciiSpace c ||
      match s1 with
      | [] => false
      | b :: s2 =>
          space2 b c ||
          match s2 with
          | [] => false
          | a :: _ => space3 a b c
          end
      end
  end.

(** The answer of the operator that is a menu choice. *)
Definition as_choice (ans : string) : option ctrlChoice :=
  if String.eqb ans "c" then Some ctrlContinue
  else if String.eqb ans "s" then Some ctrlStop
  else if String.eqb ans "a" then Some ctrlAbort
  else if String.eqb ans "h" then Some ctrlHackerMode
  else None.

(** What the menu does with an answer that is no choice. *)
Definition reprompt (ans : string) : list action :=
  [Say menu_text; RecvUser ans;
   Say (if String.eqb ans "l" then ports_listing else invalid_entry ans)].

(** An event of plain streaming: an operator line or a pulse without
    error. *)
Definition is_streaming (ev : event) : bool :=
  match ev with
  | user_line _ | pulse None => true
  | _ => false
  end.

Definition is_pulse (ev : event) : bool :=
  match ev with pulse _ => true | _ => false end.

(** The pulses among the events. *)
Definition count_pulses (evs : list event) : nat :=
  List.length (filter is_pulse evs).

(** The lines typed by the operator outside the menu. *)
Definition typed (evs : list event) : list string :=
  flat_map (fun ev => match ev with user_line s => [s] | _ => [] end) evs.

(** The interrupt handler as the trace tells it: installed by
    [signal.Notify], dropped by [signal.Reset]; a signal received with the
    handler dropped, or the menu shown with the handler installed, is a
    failure ([None]). *)
Fixpoint handler_after (armed : bool) (t : list action) : option bool :=
  match t with
  | [] => Some armed
  | SigNotify :: t' => handler_after true t'
  | SigReset :: t' => handler_after false t'
  | RecvSig :: t' => if armed then handler_after armed t' else None
  | Say menu_text :: t' => if armed then None else handler_after armed t'
  | _ :: t' => handler_after armed t'
  end.

Definition status_of (x : status * vars * list action) : status := fst (fst x).
Definition final_of (x : status * vars * list action) : vars := snd (fst x).
Definition done_of (x : status * vars * list action) : list action := snd x.

(** The operator typing one line per reply. *)
Definition one_per_reply (lines : list string) : list event :=
  flat_map (fun l => [user_line l; pulse None]) lines.

(** Two scanners on the console, the first ended by an interrupt. *)
Definition console_a : scanner := Scanner ["h"; "M105"] None.
Definition console_b : scanner := Scanner ["M114"] (Some (IOError "console")).

(** What the loop keeps about its feeds: the local queue is empty and a
    stop channel holds lines of the stop sequence only. *)
Definition feeds_ok (s : vars) : Prop :=
  hack_queue s = [] /\
  forall c, gcode s = stop_feed c -> incl c stop_lines.

(** ** Facts about the library functions *)

Section TrimFacts.

Lemma strip_comment_before_semicolon s :
  strip_comment s = before_semicolon s.
Proof.
  unfold strip_comment.
  induction s as [|c s IH]; simpl; [reflexivity|].
  destruct (Byte.eqb c semicolon); simpl; [reflexivity|].
  rewrite <- IH. destruct (IndexByte s semicolon); reflexivity.
Qed.

Lemma before_semicolon_LF l :
  before_semicolon (l ++ [LF]) = before_semicolon l \/
  before_semicolon (l ++ [LF]) = before_semicolon l ++ [LF].
Proof.
  induction l as [|c l IH]; simpl.
  - right; reflexivity.
  - destruct (Byte.eqb c semicolon); [now left|].
    destruct IH as [-> | ->]; [now left | now right].
Qed.

Lemma space2_LF a : space2 a LF = false.
Proof. unfold space2. simpl. apply andb_false_r. Qed.

Lemma space3_LF a b : space3 a b LF = false.
Proof.
  unfold space3, LF.
  destruct (Byte.eqb a xe1), (Byte.eqb a xe2), (Byte.eqb a xe3),
    (Byte.eqb b x9a), (Byte.eqb b x80), (Byte.eqb b x81); reflexivity.
Qed.

(** A newline after [l] is trimmed from the left exactly when all of [l]
    is. *)
Lemma TrimLeftSpace_LF_aux n : forall l, List.length l <= n ->
  TrimLeftSpace (l ++ [LF]) =
    match TrimLeftSpace l with [] => [] | t => t ++ [LF] end.
Proof.
  induction n as [|n IH]; intros l Hn.
  - destruct l; [reflexivity | simpl in Hn; lia].
  - destruct l as [|a [|b [|c l]]]; simpl in Hn |- *.
    + reflexivity.
    + destruct (asciiSpace a); [reflexivity|].
      now rewrite space2_LF.
    + destruct (asciiSpace a).
      * apply (IH [b]). simpl; lia.
      * destruct (space2 a b); [reflexivity|].
        now rewrite space3_LF.
    + destruct (asciiSpace a).
      * apply (IH (b :: c :: l)). simpl; lia.
      * destruct (space2 a b).
        -- apply (IH (c :: l)). simpl; lia.
        -- destruct (space3 a b c); [|reflexivity].
           apply IH. lia.
Qed.

Lemma TrimRightSpace_LF t : TrimRightSpace (t ++ [LF]) = TrimRightSpace t.
Proof. unfold TrimRightSpace. rewrite rev_app_distr. reflexivity. Qed.

Lemma TrimSpace_LF l : TrimSpace (l ++ [LF]) = TrimSpace l.
Proof.
  unfold TrimSpace.
  rewrite (TrimLeftSpace_LF_aux _ l (le_n _)).
  destruct (TrimLeftSpace l) as [|x t]; [reflexivity|].
  apply TrimRightSpace_LF.
Qed.

(** The chunk with its newline cleans to the same line as without. *)
Lemma clean_LF l : clean (l ++ [LF]) = TrimSpace (before_semicolon l).
Proof.
  unfold clean. rewrite strip_comment_before_semicolon.
  destruct (before_semicolon_LF l) as [-> | ->]; [reflexivity|].
  apply TrimSpace_LF.
Qed.

Lemma clean_spec l : clean l = TrimSpace (before_semicolon l).
Proof. unfold clean. now rewrite strip_comment_before_semicolon. Qed.

End TrimFacts.

(** ** Facts about [ReadBytes] *)

Section ReadFacts.

Variable e : error.

(** A read that ends at a newline returns one physical line with its
    terminator. *)
Lemma read_until_line p : forall s rest,
  read_until LF e p = (s, None, rest) ->
  exists l, s = l ++ [LF] /\ p = l ++ LF :: rest /\
    forall cur, physical_lines_from cur p =
                (cur ++ l) :: physical_lines_from [] rest.
Proof.
  induction p as [|c p IH]; simpl; intros s rest H; [discriminate|].
  destruct (Byte.eqb c LF) eqn:Ec.
  - inversion H; subst. apply Byte.byte_dec_bl in Ec. subst c.
    exists []. repeat split. intros cur. now rewrite app_nil_r.
  - destruct (read_until LF e p) as [[s' err'] rest'].
    inversion H; subst.
    destruct (IH _ _ eq_refl) as (l & -> & -> & Hl).
    exists (c :: l). repeat split.
    intros cur. rewrite Hl, <- app_assoc. reflexivity.
Qed.

(** A read that meets the end of the input returns what was left of it,
    and the reader's own error. *)
Lemma read_until_end p : forall s err rest,
  read_until LF e p = (s, Some err, rest) ->
  s = p /\ err = e /\ rest = [] /\
  forall cur, physical_lines_from cur p =
              if is_empty (cur ++ p) then [] else [cur ++ p].
Proof.
  induction p as [|c p IH]; simpl; intros s err rest H.
  - inversion H; subst. repeat split. intros cur. now rewrite app_nil_r.
  - destruct (Byte.eqb c LF); [discriminate|].
    destruct (read_until LF e p) as [[s' err'] rest'].
    inversion H; subst.
    destruct (IH _ _ _ eq_refl) as (-> & -> & -> & Hl).
    repeat split. intros cur. rewrite Hl, <- app_assoc. reflexivity.
Qed.

End ReadFacts.

(** ** The Line Source yields the command lines of the file *)

Section LineSource.

Lemma command_lines_cons l cur rest :
  filter (fun s => negb (is_empty s))
    (map (fun l => TrimSpace (before_semicolon l)) ((cur ++ l) :: rest)) =
  if is_empty (TrimSpace (before_semicolon (cur ++ l)))
  then filter (fun s => negb (is_empty s))
         (map (fun l => TrimSpace (before_semicolon l)) rest)
  else TrimSpace (before_semicolon (cur ++ l)) ::
       filter (fun s => negb (is_empty s))
         (map (fun l => TrimSpace (before_semicolon l)) rest).
Proof.
  simpl. now destruct (is_empty (TrimSpace (before_semicolon (cur ++ l)))).
Qed.

(** The loop sends the command lines of what the reader holds, and leaves
    with the reader's final error. *)
Lemma gcodeLines_loop_spec r :
  gcodeLines_loop r = (command_lines (pending r), Some (at_end r)).
Proof.
  funelim (gcodeLines_loop r); clear Heqcall;
    match goal with H : sigmaI _ _ _ = _ |- _ => clear H end.
  - (* the read met the end of the input *)
    unfold ReadBytes in e1.
    destruct (read_until LF (at_end r) (pending r)) as [[s0 e0] rest] eqn:E.
    inversion e1; subst; clear e1.
    apply read_until_end in E as (-> & -> & -> & Hl).
    unfold command_lines, physical_lines. rewrite (Hl []).
    cbn [app]. destruct (pending r) as [|c p]; [reflexivity|].
    cbn [is_empty map filter]. rewrite clean_spec.
    now destruct (is_empty (TrimSpace (before_semicolon (c :: p)))).
  - (* the read returned a terminated line *)
    unfold ReadBytes in Hread.
    destruct (read_until LF (at_end r) (pending r)) as [[s0 e0] rest] eqn:E.
    inversion Hread; subst; clear Hread.
    apply read_until_line in E as (l & -> & Hp & Hl).
    simpl in H. rewrite H.
    unfold command_lines at 3. unfold physical_lines.
    rewrite (Hl []), command_lines_cons. simpl app.
    rewrite clean_LF.
    replace (is_empty (l ++ [LF])) with false by now destruct l.
    unfold command_lines, physical_lines.
    now destruct (is_empty (TrimSpace (before_semicolon l))).
Qed.

Lemma gcodeLines_spec content :
  gcodeLines (os_File content) = (command_lines content, Closed).
Proof.
  unfold gcodeLines. now rewrite gcodeLines_loop_spec.
Qed.

End LineSource.

(** C2. For every command file, the lines the Line Source yields are the
    physical lines of the file, each truncated at its first [';'] and
    trimmed of white space, without those that end up empty, in the order
    of the file; the source then closes its channel.  In particular the
    file ["G28 ; home\n\nG1 X10\n"] yields exactly [G28] and [G1 X10]. *)
Theorem gcodeLines_yields_command_lines :
  (forall content : bytes,
      gcodeLines (os_File content) = (command_lines content, Closed)) /\
  gcodeLines (os_File (to_bytes "G28 ; home

G1 X10
")) = ([to_bytes "G28"; to_bytes "G1 X10"], Closed).
Proof.
  split.
  - exact gcodeLines_spec.
  - reflexivity.
Qed.

Section FinalLine.

Lemma IndexByte_cons_None c l x :
  IndexByte (c :: l) x = None ->
  Byte.eqb c x = false /\ IndexByte l x = None.
Proof.
  simpl. destruct (Byte.eqb c x); [discriminate|].
  destruct (IndexByte l x); [discriminate|]. now split.
Qed.

(** Text without a newline is one physical line, or none when empty. *)
Lemma physical_lines_from_unterminated l : forall cur,
  IndexByte l LF = None ->
  physical_lines_from cur l =
    if is_empty (cur ++ l) then [] else [cur ++ l].
Proof.
  induction l as [|c l IH]; intros cur H; simpl.
  - now rewrite app_nil_r.
  - apply IndexByte_cons_None in H as [-> H].
    rewrite IH by assumption. now rewrite <- app_assoc.
Qed.

(** The lines after a newline do not depend on what came before it. *)
Lemma physical_lines_from_app a : forall cur b,
  physical_lines_from cur (a ++ LF :: b) =
  physical_lines_from cur (a ++ [LF]) ++ physical_lines_from [] b.
Proof.
  induction a as [|c a IH]; intros cur b; simpl.
  - reflexivity.
  - destruct (Byte.eqb c LF); simpl; now rewrite IH.
Qed.

Lemma command_lines_unterminated last :
  IndexByte last LF = None -> clean last <> [] ->
  command_lines last = [clean last].
Proof.
  intros HLF Hne. unfold command_lines, physical_lines.
  rewrite physical_lines_from_unterminated by assumption. cbn [app].
  destruct last as [|c l]; [now elim Hne|].
  cbn [is_empty map filter]. rewrite <- clean_spec.
  destruct (clean (c :: l)); [now elim Hne | reflexivity].
Qed.

Lemma command_lines_app pre last :
  command_lines (pre ++ LF :: last) =
  command_lines (pre ++ [LF]) ++ command_lines last.
Proof.
  unfold command_lines, physical_lines.
  now rewrite physical_lines_from_app, map_app, filter_app.
Qed.

End FinalLine.

(** C9. When the last physical line of the command file has no newline
    after it and is not empty once truncated and trimmed, the Line Source
    still yields it, after the lines before it, and then closes: the chunk
    read together with the end of the input is not dropped. *)
Theorem final_line_without_newline_is_yielded (last : bytes) :
  IndexByte last LF = None ->
  clean last <> [] ->
  gcodeLines (os_File last) = ([clean last], Closed) /\
  forall pre : bytes,
    gcodeLines (os_File (pre ++ LF :: last)) =
    (fst (gcodeLines (os_File (pre ++ [LF]))) ++ [clean last], Closed).
Proof.
  intros HLF Hne. split; [|intros pre]; rewrite !gcodeLines_spec.
  - now rewrite command_lines_unterminated.
  - cbn [fst]. rewrite command_lines_app.
    now rewrite (command_lines_unterminated last HLF Hne).
Qed.

Lemma final_line_without_newline_is_yielded_witness :
  gcodeLines (os_File (to_bytes "G1 X10 ; no newline")) =
    ([to_bytes "G1 X10"], Closed) /\
  gcodeLines (os_File (to_bytes "G28
G1 X10 ; no newline")) =
    ([to_bytes "G28"; to_bytes "G1 X10"], Closed).
Proof.
  destruct (final_line_without_newline_is_yielded
              (to_bytes "G1 X10 ; no newline")) as [H1 H2].
  - reflexivity.
  - vm_compute. discriminate.
  - split.
    + exact H1.
    + exact (H2 (to_bytes "G28")).
Defined.

(** ** The Transport Reader *)

Section Reader.

Variable e : option error.

(** One call of [serialRecv] only scans; its last scan finds ["ok"] when
    it returns without error, and the end of the transport otherwise. *)
Lemma serialRecv_from_paced toks : forall lines res err rest t last k,
  serialRecv_from e toks lines = (res, err, rest, t) ->
  pulses_follow_replies last (t ++ k) =
  pulses_follow_replies
    (Some (match err with None => Some "ok" | Some _ => None end)) k.
Proof.
  induction toks as [|ln toks IH]; simpl; intros lines res err rest t last k H.
  - inversion H; subst. reflexivity.
  - destruct (String.eqb ln "ok") eqn:Eok.
    + inversion H; subst. apply String.eqb_eq in Eok. now subst ln.
    + destruct (serialRecv_from e toks _) as [[[res' err'] rest'] t'] eqn:E.
      inversion H; subst. simpl. eapply IH; eauto.
Qed.

Lemma serialRecv_from_pulses toks : forall lines res err rest t,
  serialRecv_from e toks lines = (res, err, rest, t) ->
  pulses t = [] /\ shown t = [].
Proof.
  induction toks as [|ln toks IH]; simpl; intros lines res err rest t H.
  - inversion H; subst. now split.
  - destruct (String.eqb ln "ok").
    + inversion H; subst. now split.
    + destruct (serialRecv_from e toks _) as [[[res' err'] rest'] t'] eqn:E.
      inversion H; subst. simpl. eapply IH; eauto.
Qed.

(** The blocks still to come after a call, and the error it returns. *)
Lemma serialRecv_from_blocks toks : forall lines res err rest t,
  serialRecv_from e toks lines = (res, err, rest, t) ->
  match err with
  | None => completed_blocks toks = S (completed_blocks rest)
  | Some x =>
      completed_blocks toks = 0 /\
      x = match e with None => EOF | Some y => y end /\
      rest = []
  end.
Proof.
  unfold completed_blocks.
  induction toks as [|ln toks IH]; simpl; intros lines res err rest t H.
  - inversion H; subst. now repeat split.
  - destruct (String.eqb ln "ok").
    + inversion H; subst. reflexivity.
    + destruct (serialRecv_from e toks _) as [[[res' err'] rest'] t'] eqn:E.
      inversion H; subst. eapply IH; eauto.
Qed.

(** The lines a call returns: those it was entered with, then the lines
    it scanned that are neither empty nor the ["ok"] it stopped at. *)
Lemma serialRecv_from_lines toks : forall lines res err rest t,
  serialRecv_from e toks lines = (res, err, rest, t) ->
  res ++ filter (fun ln => negb (String.eqb ln "ok") && negb (String.eqb ln ""))
           rest =
  lines ++ filter (fun ln => negb (String.eqb ln "ok") && negb (String.eqb ln ""))
             toks.
Proof.
  induction toks as [|ln toks IH]; simpl; intros lines res err rest t H.
  - inversion H; subst. reflexivity.
  - destruct (String.eqb ln "ok") eqn:Eok; simpl.
    + inversion H; subst. reflexivity.
    + destruct (serialRecv_from e toks _) as [[[res' err'] rest'] t'] eqn:E.
      inversion H; subst. apply IH in E. rewrite E.
      destruct (String.eqb ln ""); simpl; [reflexivity|].
      now rewrite <- app_assoc.
Qed.

End Reader.

Lemma pulses_app a b : pulses (a ++ b) = pulses a ++ pulses b.
Proof. apply flat_map_app. Qed.

Lemma shown_app a b : shown (a ++ b) = shown a ++ shown b.
Proof. apply flat_map_app. Qed.

Lemma pulses_Echo res : pulses (map Echo res) = [].
Proof. induction res; simpl; auto. Qed.

Lemma shown_Echo res : shown (map Echo res) = res.
Proof. induction res; simpl; congruence. Qed.

Lemma pulses_follow_replies_Echo res last k :
  pulses_follow_replies last (map Echo res ++ k) =
  pulses_follow_replies last k.
Proof. induction res; simpl; auto. Qed.

(** Destructs the call of [serialRecv] a hypothesis [H] is about. *)
Ltac open_serialRecv E :=
  match goal with
  | H : serialRecv ?scan = _ |- _ =>
      unfold serialRecv in H;
      destruct (serialRecv_from (scan_err scan) (tokens scan) [])
        as [[[? ?] ?] ?] eqn:E;
      inversion H; subst; clear H
  end.

Lemma serialRecvChan_loop_paced scan last :
  pulses_follow_replies last (serialRecvChan_loop scan) = true.
Proof.
  revert last. funelim (serialRecvChan_loop scan); intros last; clear Heqcall;
    match goal with H : sigmaI _ _ _ = _ |- _ => clear H end.
  - open_serialRecv E.
    rewrite (serialRecv_from_paced _ _ _ _ _ _ _ last _ E).
    now rewrite pulses_follow_replies_Echo.
  - open_serialRecv E.
    rewrite (serialRecv_from_paced _ _ _ _ _ _ _ last _ E).
    rewrite pulses_follow_replies_Echo. simpl. apply H.
Qed.

Lemma serialRecvChan_loop_pulses scan :
  pulses (serialRecvChan_loop scan) =
  repeat None (completed_blocks (tokens scan)) ++ [Some (final_error scan)].
Proof.
  funelim (serialRecvChan_loop scan); clear Heqcall;
    match goal with H : sigmaI _ _ _ = _ |- _ => clear H end.
  - open_serialRecv E.
    destruct (serialRecv_from_pulses _ _ _ _ _ _ _ E) as [Hp _].
    destruct (serialRecv_from_blocks _ _ _ _ _ _ _ E) as (-> & -> & _).
    rewrite !pulses_app, Hp, pulses_Echo. reflexivity.
  - open_serialRecv E.
    destruct (serialRecv_from_pulses _ _ _ _ _ _ _ E) as [Hp _].
    rewrite (serialRecv_from_blocks _ _ _ _ _ _ _ E).
    rewrite !pulses_app, Hp, pulses_Echo. simpl. now rewrite H.
Qed.

Lemma serialRecvChan_loop_shown scan :
  shown (serialRecvChan_loop scan) =
  filter (fun ln => negb (String.eqb ln "ok") && negb (String.eqb ln ""))
         (tokens scan).
Proof.
  funelim (serialRecvChan_loop scan); clear Heqcall;
    match goal with H : sigmaI _ _ _ = _ |- _ => clear H end.
  - open_serialRecv E.
    destruct (serialRecv_from_pulses _ _ _ _ _ _ _ E) as [_ Hs].
    rewrite !shown_app, Hs, shown_Echo. simpl.
    pose proof (serialRecv_from_lines _ _ _ _ _ _ _ E) as Hl.
    destruct (serialRecv_from_blocks _ _ _ _ _ _ _ E) as (_ & _ & ->).
    simpl in Hl. rewrite <- Hl. now rewrite !app_nil_r.
  - open_serialRecv E.
    destruct (serialRecv_from_pulses _ _ _ _ _ _ _ E) as [_ Hs].
    rewrite !shown_app, Hs, shown_Echo. simpl. rewrite H. simpl.
    now rewrite (serialRecv_from_lines _ _ _ _ _ _ _ E).
Qed.

(** C5. The first thing the Transport Reader does is to send one pulse
    without error, before its first scan of the transport.  After it, a
    pulse without error is sent only when the latest scan found a line equal
    to ["ok"], and a pulse with an error only when the latest scan found
    the end of the transport or a failure, after which nothing is done.
    The pulses are: the primer, one for each ["ok"], and the final error. *)
Theorem serialRecvChan_primer_then_replies (r : scanner) :
  (exists t, serialRecvChan r = Ready None :: t /\
             pulses_follow_replies None t = true) /\
  pulses (serialRecvChan r) =
    None :: repeat None (completed_blocks (tokens r)) ++ [Some (final_error r)].
Proof.
  split.
  - exists (serialRecvChan_loop r). split; [reflexivity|].
    apply serialRecvChan_loop_paced.
  - unfold serialRecvChan. simpl. now rewrite serialRecvChan_loop_pulses.
Qed.

(** C6, as the code has it.  Every reply line that is neither empty nor
    equal to ["ok"] is shown on the terminal as incoming traffic. *)
Theorem nonempty_reply_lines_are_shown (r : scanner) (ln : string) :
  In ln (tokens r) -> ln <> "ok" -> ln <> "" ->
  In ln (shown (serialRecvChan r)).
Proof.
  intros Hin Hok Hempty.
  unfold serialRecvChan. simpl. rewrite serialRecvChan_loop_shown.
  apply filter_In. split; [assumption|].
  apply andb_true_iff; split; apply negb_true_iff, String.eqb_neq; assumption.
Qed.

Lemma nonempty_reply_lines_are_shown_witness :
  In "echo:busy" (shown (serialRecvChan (Scanner ["echo:busy"; "ok"] None))).
Proof.
  apply (nonempty_reply_lines_are_shown (Scanner ["echo:busy"; "ok"] None)).
  - simpl. left. reflexivity.
  - discriminate.
  - discriminate.
Defined.

(** C6, as the claim has it, fails: an empty reply line is not ["ok"] and
    is not shown. *)
Lemma empty_reply_line_is_not_shown :
  ~ (forall (r : scanner) (ln : string),
       In ln (tokens r) -> ln <> "ok" -> In ln (shown (serialRecvChan r))).
Proof.
  intros H.
  specialize (H (Scanner [""; "ok"] None) "").
  apply H.
  - simpl. left. reflexivity.
  - discriminate.
Qed.

(** ** The Control Loop *)

(** Unfolds one turn of the loop down to its result. *)
Ltac unfold_turn :=
  cbv beta iota zeta delta
    [turn on_user_input on_signal on_serial_ready flushUserInput send
     recv_gcode index catchSig dropSig bind ret leave do do_all get update
     result_of vars_of trace_of
     set_ready set_d_hack_queue set_gcode_file set_hack_mode set_gcode
     d hack_queue hack_mode gcode gcode_file d_hack_queue ready fst snd].

Section Traces.

Lemma flag_after_app t1 : forall b t2,
  flag_after b (t1 ++ t2) =
  match flag_after b t1 with
  | Some b' => flag_after b' t2
  | None => None
  end.
Proof.
  induction t1 as [|a t1 IH]; intros b t2; simpl; [reflexivity|].
  destruct a; try apply IH. destruct b; [apply IH | reflexivity].
Qed.

Lemma flag_after_dialog t : forall b,
  forallb is_dialog t = true -> flag_after b t = Some b.
Proof.
  induction t as [|a t IH]; intros b H; simpl in *; [reflexivity|].
  apply andb_true_iff in H as [Ha Ht].
  destruct a; try discriminate; now apply IH.
Qed.

Lemma sent_app a b : sent (a ++ b) = sent a ++ sent b.
Proof. apply flat_map_app. Qed.

Lemma from_file_app a b : from_file (a ++ b) = from_file a ++ from_file b.
Proof. apply flat_map_app. Qed.

Lemma sent_dialog t : forallb is_dialog t = true -> sent t = [].
Proof.
  induction t as [|a t IH]; simpl; intros H; [reflexivity|].
  apply andb_true_iff in H as [Ha Ht].
  destruct a; try discriminate; now apply IH.
Qed.

Lemma from_file_dialog t : forallb is_dialog t = true -> from_file t = [].
Proof.
  induction t as [|a t IH]; simpl; intros H; [reflexivity|].
  apply andb_true_iff in H as [Ha Ht].
  destruct a; try discriminate; now apply IH.
Qed.

Lemma flush_is_dialog stale : forallb is_dialog (map RecvUser stale) = true.
Proof. induction stale; simpl; auto. Qed.

Lemma controlMenu_is_dialog answers :
  forallb is_dialog (snd (fst (controlMenu answers))) = true.
Proof.
  induction answers as [|ans rest IH]; simpl; [reflexivity|].
  destruct (String.eqb ans "c"); [reflexivity|].
  destruct (String.eqb ans "s"); [reflexivity|].
  destruct (String.eqb ans "a"); [reflexivity|].
  destruct (String.eqb ans "h"); [reflexivity|].
  destruct (controlMenu rest) as [[c t] rest']. simpl in *. exact IH.
Qed.

(** Handling an interrupt neither sends nor receives from a feed. *)
Lemma on_signal_is_dialog stale answers s :
  forallb is_dialog (trace_of (on_signal stale answers s)) = true.
Proof.
  unfold_turn.
  pose proof (controlMenu_is_dialog answers) as Hm.
  destruct (controlMenu answers) as [[c t] rest]. simpl in Hm.
  destruct c as [[]|]; simpl;
    now rewrite !forallb_app, flush_is_dialog, Hm.
Qed.

(** Handling an interrupt leaves the dripper as it is, and the local
    queue too. *)
Lemma on_signal_dripper stale answers s :
  d (vars_of (on_signal stale answers s)) = d s.
Proof.
  unfold_turn. destruct (controlMenu answers) as [[c t] rest].
  destruct c as [[]|]; reflexivity.
Qed.

End Traces.

(** The loop along [a ++ b] is the loop along [a], then along [b] unless
    [a] left the loop. *)
Lemma turns_app a : forall b s,
  turns (a ++ b) s =
  match turns a s with
  | (Val _, s1, t1) => let '(r, s2, t2) := turns b s1 in (r, s2, t1 ++ t2)
  | (Exit e, s1, t1) => (Exit e, s1, t1)
  end.
Proof.
  induction a as [|ev a IH]; intros b s.
  - simpl. unfold ret. now destruct (turns b s) as [[r s2] t2].
  - simpl. unfold bind. destruct (turn ev s) as [[[[]|e] s1] t1].
    + rewrite IH. destruct (turns a s1) as [[[[]|e] s2] t2].
      * destruct (turns b s2) as [[r s3] t3]. now rewrite app_assoc.
      * reflexivity.
    + reflexivity.
Qed.

(** *** One command in flight *)

Lemma turn_flag ev s :
  flag_after (ready (d s)) (trace_of (turn ev s)) =
  Some (ready (d (vars_of (turn ev s)))).
Proof.
  destruct s as [[gf q r] lq hm g]. destruct ev as [line|stale answers|err|].
  - unfold_turn. destruct hm; [destruct r|]; reflexivity.
  - change (turn (interrupt stale answers)) with (on_signal stale answers).
    rewrite on_signal_dripper. apply flag_after_dialog, on_signal_is_dialog.
  - unfold_turn. destruct err as [e|]; [reflexivity|]. simpl.
    destruct hm.
    + destruct q as [|x q]; simpl; [reflexivity|].
      destruct lq; reflexivity.
    + destruct g as [|[|l c]]; [destruct gf|..]; reflexivity.
  - unfold_turn. reflexivity.
Qed.

Lemma turns_flag evs : forall s,
  flag_after (ready (d s)) (trace_of (turns evs s)) =
  Some (ready (d (vars_of (turns evs s)))).
Proof.
  induction evs as [|ev evs IH]; intros s; [reflexivity|].
  simpl. unfold bind. pose proof (turn_flag ev s) as H.
  destruct (turn ev s) as [[[[]|e] s1] t1]; unfold trace_of, vars_of in *;
    simpl in *; [|exact H].
  specialize (IH s1). destruct (turns evs s1) as [[r s2] t2].
  unfold trace_of, vars_of in *; simpl in *.
  now rewrite flag_after_app, H.
Qed.

(** [loop] is the loop proper between its opening and its closing. *)
Lemma loop_unfold start now d0 evs :
  loop start now d0 evs =
  let '(r, s, t) := turns evs (Vars d0 [] false file_feed) in
  match r with
  | Val _ => (waiting, s, [SigNotify; Say log_start] ++ t)
  | Exit in_menu => (in_dialog, s, [SigNotify; Say log_start] ++ t)
  | Exit break_Loop =>
      (stopped, s,
       [SigNotify; Say log_start] ++ t ++
       [Close;
        Say (log_stop (duration.Round (duration.Since start now)
                                      duration.Second));
        SigReset])
  | Exit (panic_index i n) =>
      (crashed i n, s, [SigNotify; Say log_start] ++ t ++ [SigReset])
  end.
Proof.
  unfold loop, bind, catchSig, do.
  destruct (turns evs _) as [[[[]|[]] s] t]; reflexivity.
Qed.

Lemma loop_flag start now d0 evs :
  flag_after (ready d0) (snd (loop start now d0 evs)) =
  Some (ready (d (snd (fst (loop start now d0 evs))))).
Proof.
  rewrite loop_unfold.
  pose proof (turns_flag evs (Vars d0 [] false file_feed)) as H.
  destruct (turns evs _) as [[r s] t]. unfold trace_of, vars_of in H.
  simpl in H.
  destruct r as [[]|[]]; simpl; try exact H;
    now rewrite flag_after_app, H.
Qed.

(** With the flag false and no pulse received, the flag stays false. *)
Lemma flag_after_no_pulse t :
  existsb is_RecvReady t = false ->
  flag_after false t = Some false \/ flag_after false t = None.
Proof.
  induction t as [|a t IH]; simpl; intros H; [now left|].
  apply orb_false_iff in H as [Ha Ht].
  destruct a; try discriminate; auto.
Qed.

Lemma flag_after_two_sends b t1 l1 t2 l2 t3 :
  flag_after b (t1 ++ Send l1 :: t2 ++ Send l2 :: t3) <> None ->
  existsb is_RecvReady t2 = true.
Proof.
  intros H. destruct (existsb is_RecvReady t2) eqn:E; [reflexivity|].
  exfalso. apply H. rewrite flag_after_app.
  destruct (flag_after b t1) as [[]|]; simpl; try reflexivity.
  rewrite flag_after_app.
  destruct (flag_after_no_pulse t2 E) as [-> | ->]; reflexivity.
Qed.

(** C3. Along every run of the Control Loop, whatever the order of
    operator lines, interrupts and pulses: followed through the trace, the
    Readiness Flag (true after a pulse is received, false after a send) is
    the field [ready] of the dripper and is true at every send; and between
    two sends a pulse is received, so that one command at most is in
    flight. *)
Theorem one_command_in_flight (start now : Z) (d0 : dripper)
    (evs : list event) :
  flag_after (ready d0) (snd (loop start now d0 evs)) =
    Some (ready (d (snd (fst (loop start now d0 evs))))) /\
  forall t1 l1 t2 l2 t3,
    snd (loop start now d0 evs) = t1 ++ Send l1 :: t2 ++ Send l2 :: t3 ->
    existsb is_RecvReady t2 = true.
Proof.
  split; [apply loop_flag|].
  intros t1 l1 t2 l2 t3 Ht.
  apply (flag_after_two_sends (ready d0) t1 l1 t2 l2 t3).
  rewrite <- Ht, loop_flag. discriminate.
Qed.

Lemma one_command_in_flight_witness :
  existsb is_RecvReady [RecvReady None true; RecvFile (Some (to_bytes "G1 X10"))]
  = true.
Proof.
  pose (d0 := newDripper (os_File (to_bytes "G28
G1 X10
"))).
  apply (proj2 (one_command_in_flight 0 0 d0 [pulse None; pulse None])
           [SigNotify; Say log_start; RecvReady None true;
            RecvFile (Some (to_bytes "G28"))]
           (to_bytes "G28") _ (to_bytes "G1 X10") []).
  reflexivity.
Defined.

(** *** The file feed *)

Lemma turn_from_file ev s :
  gcode_file (d s) =
  from_file (trace_of (turn ev s)) ++ gcode_file (d (vars_of (turn ev s))).
Proof.
  destruct ev as [line|stale answers|err|].
  - destruct s as [[gf q r] lq hm g]. unfold_turn.
    destruct hm; [destruct r|]; reflexivity.
  - change (turn (interrupt stale answers)) with (on_signal stale answers).
    now rewrite on_signal_dripper, from_file_dialog
      by apply on_signal_is_dialog.
  - destruct s as [[gf q r] lq hm g]. unfold_turn.
    destruct err as [e|]; [reflexivity|]. simpl.
    destruct hm.
    + destruct q as [|x q]; simpl; [reflexivity|].
      destruct lq; reflexivity.
    + destruct g as [|[|l c]]; [destruct gf|..]; reflexivity.
  - destruct s as [[gf q r] lq hm g]. reflexivity.
Qed.

Lemma turns_from_file evs : forall s,
  gcode_file (d s) =
  from_file (trace_of (turns evs s)) ++ gcode_file (d (vars_of (turns evs s))).
Proof.
  induction evs as [|ev evs IH]; intros s; [reflexivity|].
  simpl. unfold bind. pose proof (turn_from_file ev s) as H.
  destruct (turn ev s) as [[[[]|e] s1] t1]; unfold trace_of, vars_of in *;
    simpl in *; [|exact H].
  specialize (IH s1). destruct (turns evs s1) as [[r s2] t2].
  unfold trace_of, vars_of in *; simpl in *.
  now rewrite from_file_app, <- app_assoc, <- IH.
Qed.

(** C8. Handling an interrupt, whatever the menu choice, leaves the file
    channel as it is.  Along every run, the lines received from the file
    channel followed by those it still holds are the lines it held at the
    start: none is skipped and none comes twice.  And after the menu
    returns "continue", the next pulse takes the first line the file
    channel holds and sends it. *)
Theorem file_feed_position_is_kept :
  (forall stale answers s,
      gcode_file (d (vars_of (turn (interrupt stale answers) s))) =
      gcode_file (d s)) /\
  (forall start now d0 evs,
      gcode_file d0 =
      from_file (snd (loop start now d0 evs)) ++
      gcode_file (d (snd (fst (loop start now d0 evs))))) /\
  (forall stale answers s l rest,
      choice_of answers = Some ctrlContinue ->
      gcode_file (d s) = l :: rest ->
      let s1 := vars_of (turn (interrupt stale answers) s) in
      trace_of (turn (pulse None) s1) =
        [RecvReady None true; RecvFile (Some l); Send l] /\
      gcode_file (d (vars_of (turn (pulse None) s1))) = rest).
Proof.
  split; [|split].
  - intros stale answers s.
    change (turn (interrupt stale answers)) with (on_signal stale answers).
    now rewrite on_signal_dripper.
  - intros start now d0 evs. rewrite loop_unfold.
    pose proof (turns_from_file evs (Vars d0 [] false file_feed)) as H.
    destruct (turns evs _) as [[r s] t]. unfold trace_of, vars_of in H.
    simpl in H.
    destruct r as [[]|[]]; simpl; try exact H;
      now rewrite from_file_app, app_nil_r.
  - intros stale answers s l rest Hc Hs.
    destruct s as [[gf q r] lq hm g]. simpl in Hs. subst gf.
    unfold choice_of in Hc. unfold_turn.
    destruct (controlMenu answers) as [[c t] rest']. simpl in Hc. subst c.
    split; reflexivity.
Qed.

Lemma file_feed_position_is_kept_witness :
  trace_of (turn (pulse None)
              (vars_of (turn (interrupt ["stale"] ["x"; "c"]) paused_vars))) =
    [RecvReady None true; RecvFile (Some (to_bytes "G1 X10"));
     Send (to_bytes "G1 X10")] /\
  gcode_file (d (vars_of (turn (pulse None)
              (vars_of (turn (interrupt ["stale"] ["x"; "c"]) paused_vars))))) =
    [to_bytes "G1 X20"].
Proof.
  apply (proj2 (proj2 file_feed_position_is_kept) ["stale"] ["x"; "c"]
           paused_vars (to_bytes "G1 X10") [to_bytes "G1 X20"]).
  - reflexivity.
  - reflexivity.
Defined.

(** *** The pending queue *)

(** Outside hacker mode, a turn that is not an interrupt leaves the queue
    alone and stays outside hacker mode. *)
Lemma streaming_turn_queue ev s :
  hack_mode s = false -> is_interrupt ev = false ->
  d_hack_queue (d (vars_of (turn ev s))) = d_hack_queue (d s) /\
  hack_mode (vars_of (turn ev s)) = false.
Proof.
  destruct s as [[gf q r] lq hm g]. simpl. intros -> Hev.
  destruct ev as [line|stale answers|err|]; try discriminate.
  - now split.
  - unfold_turn. destruct err as [e|]; [now split|]. simpl.
    destruct g as [|[|l c]]; [destruct gf|..]; now split.
  - now split.
Qed.

Lemma streaming_turns_queue evs : forall s,
  hack_mode s = false -> existsb is_interrupt evs = false ->
  d_hack_queue (d (vars_of (turns evs s))) = d_hack_queue (d s) /\
  hack_mode (vars_of (turns evs s)) = false.
Proof.
  induction evs as [|ev evs IH]; intros s Hm Hev; [now split|].
  simpl in Hev. apply orb_false_iff in Hev as [Hev Hevs].
  destruct (streaming_turn_queue ev s Hm Hev) as [Hq Hm1].
  simpl. unfold bind.
  destruct (turn ev s) as [[[[]|e] s1] t1]; unfold vars_of in *; simpl in *;
    [|now split].
  destruct (IH s1 Hm1 Hevs) as [Hq2 Hm2].
  destruct (turns evs s1) as [[r s2] t2]. simpl in *.
  split; [congruence | assumption].
Qed.

Lemma on_signal_mode stale answers s :
  choice_of answers <> Some ctrlHackerMode ->
  hack_mode (vars_of (on_signal stale answers s)) = false.
Proof.
  unfold choice_of. unfold_turn.
  destruct (controlMenu answers) as [[c t] rest]. simpl.
  destruct c as [[]|]; intros H; try reflexivity. now elim H.
Qed.

(** C10. Handling an interrupt, whatever the menu choice, leaves the
    Pending Queue as it is, lines and order.  It is still so when, after a
    choice other than hacker mode and any turns without interrupt, a second
    interrupt is handled, be it to enter hacker mode again. *)
Theorem pending_queue_survives_interrupt :
  (forall stale answers s,
      d_hack_queue (d (vars_of (turn (interrupt stale answers) s))) =
      d_hack_queue (d s)) /\
  (forall stale answers evs stale' answers' s,
      choice_of answers <> Some ctrlHackerMode ->
      existsb is_interrupt evs = false ->
      d_hack_queue
        (d (vars_of (turns (interrupt stale answers :: evs ++
                            [interrupt stale' answers']) s))) =
      d_hack_queue (d s)).
Proof.
  assert (Hone : forall stale answers s,
             d_hack_queue (d (vars_of (turn (interrupt stale answers) s))) =
             d_hack_queue (d s)).
  { intros stale answers s.
    change (turn (interrupt stale answers)) with (on_signal stale answers).
    now rewrite on_signal_dripper. }
  split; [exact Hone|].
  intros stale answers evs stale' answers' s Hc Hevs.
  change (turns (interrupt stale answers :: evs ++ [interrupt stale' answers']))
    with (bind (on_signal stale answers)
               (fun _ => turns (evs ++ [interrupt stale' answers']))).
  unfold bind.
  pose proof (on_signal_dripper stale answers s) as Hd.
  pose proof (on_signal_mode stale answers s Hc) as Hm.
  destruct (on_signal stale answers s) as [[[[]|e] s1] t1];
    unfold vars_of in *; simpl in *; [|now rewrite Hd].
  rewrite turns_app.
  destruct (streaming_turns_queue evs s1 Hm Hevs) as [Hq _].
  destruct (turns evs s1) as [[[[]|e] s2] t2]; unfold vars_of in *;
    simpl in *; [|congruence].
  specialize (Hone stale' answers' s2). simpl in Hone.
  unfold bind in Hone |- *. unfold vars_of in Hone.
  destruct (on_signal stale' answers' s2) as [[[[]|e] s3] t3];
    simpl in *; congruence.
Qed.

Lemma pending_queue_survives_interrupt_witness :
  d_hack_queue
    (d (vars_of (turns (interrupt [] ["c"] ::
                        [pulse None; user_line "M114"; pulse None] ++
                        [interrupt ["x"] ["h"]]) paused_vars))) =
  ["M105"].
Proof.
  apply (proj2 pending_queue_survives_interrupt [] ["c"]
           [pulse None; user_line "M114"; pulse None] ["x"] ["h"] paused_vars).
  - discriminate.
  - reflexivity.
Defined.

(** *** The end of the transport *)

Lemma loop_waiting start now d0 evs s t :
  loop start now d0 evs = (waiting, s, t) ->
  exists t', turns evs (Vars d0 [] false file_feed) = (Val tt, s, t') /\
             t = [SigNotify; Say log_start] ++ t'.
Proof.
  rewrite loop_unfold.
  destruct (turns evs _) as [[[[]|[]] s'] t']; intros H; inversion H; subst.
  now exists t'.
Qed.

(** C7. When the loop, waiting in its [select], receives a pulse that
    carries an error or finds the pulse channel closed, it returns: after
    the receive (and the error logged) nothing is sent, the channel to the
    Transport Writer is closed, and the time elapsed since the start of the
    loop is reported, rounded to the second; the events that would come
    later are not looked at. *)
Theorem transport_failure_stops_loop (start now : Z) (d0 : dripper)
    (evs more : list event) (s : vars) (t : list action) :
  loop start now d0 evs = (waiting, s, t) ->
  (forall e : error,
      loop start now d0 (evs ++ pulse (Some e) :: more) =
      (stopped, set_ready true s,
       t ++ [RecvReady (Some e) true; Say (log_error e); Close;
             Say (log_stop (duration.Round (duration.Since start now)
                                           duration.Second));
             SigReset])) /\
  loop start now d0 (evs ++ ready_closed :: more) =
  (stopped, set_ready true s,
   t ++ [RecvReady None false; Close;
         Say (log_stop (duration.Round (duration.Since start now)
                                       duration.Second));
         SigReset]).
Proof.
  intros H. apply loop_waiting in H as (t' & Ht & ->).
  split; [intros e|]; rewrite loop_unfold, turns_app, Ht; simpl;
    unfold bind; unfold_turn; simpl; now rewrite <- app_assoc.
Qed.

Lemma transport_failure_stops_loop_witness :
  loop 0 2600000000 two_line_dripper
       ([pulse None] ++ pulse (Some (IOError "port gone")) :: [pulse None]) =
  (stopped,
   Vars (Dripper [to_bytes "G1 X10"] [] true) [] false file_feed,
   [SigNotify; Say log_start; RecvReady None true;
    RecvFile (Some (to_bytes "G28")); Send (to_bytes "G28");
    RecvReady (Some (IOError "port gone")) true;
    Say (log_error (IOError "port gone")); Close;
    Say (log_stop 3000000000); SigReset]).
Proof.
  apply (proj1 (transport_failure_stops_loop 0 2600000000 two_line_dripper
                  [pulse None] [pulse None]
                  (Vars (Dripper [to_bytes "G1 X10"] [] false) [] false file_feed)
                  [SigNotify; Say log_start; RecvReady None true;
                   RecvFile (Some (to_bytes "G28")); Send (to_bytes "G28")]
                  eq_refl)).
Defined.

(** *** The stop sequence *)

Lemma stopGCode_eq : stopGCode = (stop_lines, None).
Proof. reflexivity. Qed.

(** C4. A call of [stopGCode] delivers the five lines [M107], [M104 S0],
    [M140 S0], [G1 Z50], [M84 Z E], in this order, and closes.  Whatever
    the state of the loop, and of an earlier stop sequence in it, the menu
    choice "stop" makes the active feed a channel holding all five, and the
    next five pulses send them from the first on. *)
Theorem stop_sequence_restarts :
  stopGCode = (stop_lines, None) /\
  forall stale answers s,
    choice_of answers = Some ctrlStop ->
    gcode (vars_of (turn (interrupt stale answers) s)) = stop_feed stop_lines /\
    sent (trace_of (turns (interrupt stale answers :: repeat (pulse None) 5) s))
    = stop_lines.
Proof.
  split; [exact stopGCode_eq|].
  intros stale answers s Hc. unfold choice_of in Hc.
  pose proof (on_signal_is_dialog stale answers s) as Hdlg.
  destruct s as [[gf q r] lq hm g].
  change (turns (interrupt stale answers :: repeat (pulse None) 5))
    with (bind (on_signal stale answers)
               (fun _ => turns (repeat (pulse None) 5))).
  change (turn (interrupt stale answers)) with (on_signal stale answers).
  revert Hdlg. unfold bind at 1. unfold on_signal.
  destruct (controlMenu answers) as [[c t] rest]. simpl in Hc. subst c.
  rewrite stopGCode_eq. unfold_turn. simpl. intros Hdlg.
  split; [reflexivity|].
  rewrite !app_assoc, sent_app, <- !app_assoc.
  now rewrite (sent_dialog _ Hdlg).
Qed.

Lemma stop_sequence_restarts_witness :
  gcode (vars_of (turn (interrupt [] ["s"]) paused_vars)) =
    stop_feed stop_lines /\
  sent (trace_of (turns (interrupt [] ["s"] :: repeat (pulse None) 5)
                        paused_vars)) = stop_lines.
Proof.
  apply (proj2 stop_sequence_restarts [] ["s"] paused_vars).
  reflexivity.
Defined.

(** *** Hacker mode *)

(** The local [hack_queue] of [loop] is never assigned. *)
Lemma local_hack_queue_unchanged ev s :
  hack_queue (vars_of (turn ev s)) = hack_queue s.
Proof.
  destruct s as [[gf q r] lq hm g]. destruct ev as [line|stale answers|err|].
  - unfold_turn. destruct hm; [destruct r|]; reflexivity.
  - unfold_turn. destruct (controlMenu answers) as [[c t] rest].
    destruct c as [[]|]; reflexivity.
  - unfold_turn. destruct err as [e|]; [reflexivity|]. simpl.
    destruct hm.
    + destruct q as [|x q]; simpl; [reflexivity|].
      destruct lq; reflexivity.
    + destruct g as [|[|l c]]; [destruct gf|..]; reflexivity.
  - reflexivity.
Qed.

(** In hacker mode a line typed while the flag is true is sent at once,
    and one typed while it is false goes to the end of the queue. *)
Lemma hacker_line_sent_or_queued line s :
  hack_mode s = true ->
  turn (user_line line) s =
  if ready (d s)
  then (Val tt, set_ready false s, [RecvUser line; Send (to_bytes line)])
  else (Val tt, set_d_hack_queue (d_hack_queue (d s) ++ [line]) s,
        [RecvUser line]).
Proof.
  destruct s as [[gf q r] lq hm g]. simpl. intros ->.
  destruct r; reflexivity.
Qed.

(** In hacker mode, a pulse that finds a line queued reads the head of the
    local, empty [hack_queue] and not of [d.hack_queue]: the loop panics
    before any send. *)
Lemma queued_line_panics s :
  hack_mode s = true -> hack_queue s = [] -> d_hack_queue (d s) <> [] ->
  turn (pulse None) s =
  (Exit (panic_index 0 0), set_ready true s, [RecvReady None true]).
Proof.
  destruct s as [[gf q r] lq hm g]. simpl. intros -> -> Hq.
  destruct q as [|x q]; [now elim Hq|]. reflexivity.
Qed.

(** C1, on the code.  File [G28]; the primer sends it; the operator enters
    hacker mode and types [M105] before the reply; at the reply the loop
    panics, with [M105] still queued and never sent. *)
Theorem hacker_queue_head_panics :
  loop 0 0 (newDripper (os_File (to_bytes "G28
")))
       [pulse None; interrupt [] ["h"]; user_line "M105"; pulse None] =
  (crashed 0 0,
   Vars (Dripper [] ["M105"] true) [] true file_feed,
   [SigNotify; Say log_start;
    RecvReady None true; RecvFile (Some (to_bytes "G28")); Send (to_bytes "G28");
    RecvSig; SigReset; Say menu_text; RecvUser "h"; Say hacker_mode; SigNotify;
    RecvUser "M105";
    RecvReady None true;
    SigReset]).
Proof. reflexivity. Qed.

(** ** More on the Line Source *)

Section TrimSpaceFacts.

(** Induction along [TrimLeftSpace]: a rune of white space of one, two or
    three bytes is dropped, or the string does not start with one. *)
Lemma TrimLeftSpace_cases (P : bytes -> bytes -> Prop) :
  (forall a s1, asciiSpace a = true ->
      P s1 (TrimLeftSpace s1) -> P (a :: s1) (TrimLeftSpace s1)) ->
  (forall a b s2, asciiSpace a = false -> space2 a b = true ->
      P s2 (TrimLeftSpace s2) -> P (a :: b :: s2) (TrimLeftSpace s2)) ->
  (forall a b c s3, asciiSpace a = false -> space2 a b = false ->
      space3 a b c = true ->
      P s3 (TrimLeftSpace s3) -> P (a :: b :: c :: s3) (TrimLeftSpace s3)) ->
  (forall s, starts_with_space s = false -> P s s) ->
  forall s, P s (TrimLeftSpace s).
Proof.
  intros H1 H2 H3 H0 s.
  remember (List.length s) as n eqn:Hn.
  assert (Hle : List.length s <= n) by lia. clear Hn.
  revert s Hle. induction n as [|n IH]; intros s Hle.
  - destruct s; [|simpl in Hle; lia]. now apply H0.
  - destruct s as [|a [|b [|c s3]]]; simpl in Hle |- *.
    + now apply H0.
    + destruct (asciiSpace a) eqn:Ea.
      * apply (H1 a []); [assumption|]. now apply (H0 []).
      * apply H0. simpl. now rewrite Ea.
    + destruct (asciiSpace a) eqn:Ea.
      * apply (H1 a [b]); [assumption|]. apply IH. simpl; lia.
      * destruct (space2 a b) eqn:Eb.
        -- apply (H2 a b []); try assumption. now apply (H0 []).
        -- apply H0. simpl. now rewrite Ea, Eb.
    + destruct (asciiSpace a) eqn:Ea.
      * apply (H1 a (b :: c :: s3)); [assumption|]. apply IH. simpl; lia.
      * destruct (space2 a b) eqn:Eb.
        -- apply (H2 a b (c :: s3)); try assumption. apply IH. simpl; lia.
        -- destruct (space3 a b c) eqn:Ec.
           ++ apply H3; try assumption. apply IH. lia.
           ++ apply H0. simpl. now rewrite Ea, Eb, Ec.
Qed.

Lemma TrimLeftSpace_rev_cases (P : bytes -> bytes -> Prop) :
  (forall c s1, asciiSpace c = true ->
      P s1 (TrimLeftSpace_rev s1) -> P (c :: s1) (TrimLeftSpace_rev s1)) ->
  (forall c b s2, asciiSpace c = false -> space2 b c = true ->
      P s2 (TrimLeftSpace_rev s2) -> P (c :: b :: s2) (TrimLeftSpace_rev s2)) ->
  (forall c b a s3, asciiSpace c = false -> space2 b c = false ->
      space3 a b c = true ->
      P s3 (TrimLeftSpace_rev s3) ->
      P (c :: b :: a :: s3) (TrimLeftSpace_rev s3)) ->
  (forall s, starts_with_space_rev s = false -> P s s) ->
  forall s, P s (TrimLeftSpace_rev s).
Proof.
  intros H1 H2 H3 H0 s.
  remember (List.length s) as n eqn:Hn.
  assert (Hle : List.length s <= n) by lia. clear Hn.
  revert s Hle. induction n as [|n IH]; intros s Hle.
  - destruct s; [|simpl in Hle; lia]. now apply H0.
  - destruct s as [|c [|b [|a s3]]]; simpl in Hle |- *.
    + now apply H0.
    + destruct (asciiSpace c) eqn:Ec.
      * apply (H1 c []); [assumption|]. now apply (H0 []).
      * apply H0. simpl. now rewrite Ec.
    + destruct (asciiSpace c) eqn:Ec.
      * apply (H1 c [b]); [assumption|]. apply IH. simpl; lia.
      * destruct (space2 b c) eqn:Eb.
        -- apply (H2 c b []); try assumption. now apply (H0 []).
        -- apply H0. simpl. now rewrite Ec, Eb.
    + destruct (asciiSpace c) eqn:Ec.
      * apply (H1 c (b :: a :: s3)); [assumption|]. apply IH. simpl; lia.
      * destruct (space2 b c) eqn:Eb.
        -- apply (H2 c b (a :: s3)); try assumption. apply IH. simpl; lia.
        -- destruct (space3 a b c) eqn:Ea.
           ++ apply H3; try assumption. apply IH. lia.
           ++ apply H0. simpl. now rewrite Ec, Eb, Ea.
Qed.

(** What is left does not start with white space. *)
Lemma TrimLeftSpace_done s : starts_with_space (TrimLeftSpace s) = false.
Proof. apply (TrimLeftSpace_cases (fun _ r => starts_with_space r = false)); auto. Qed.

Lemma TrimLeftSpace_rev_done s :
  starts_with_space_rev (TrimLeftSpace_rev s) = false.
Proof.
  apply (TrimLeftSpace_rev_cases (fun _ r => starts_with_space_rev r = false));
    auto.
Qed.

(** Without white space in front nothing is dropped. *)
Lemma TrimLeftSpace_fixed s :
  starts_with_space s = false -> TrimLeftSpace s = s.
Proof.
  destruct s as [|a [|b [|c s3]]]; simpl; try reflexivity.
  - destruct (asciiSpace a); [discriminate | reflexivity].
  - destruct (asciiSpace a); [discriminate|].
    destruct (space2 a b); [discriminate | reflexivity].
  - destruct (asciiSpace a); [discriminate|].
    destruct (space2 a b); [discriminate|].
    destruct (space3 a b c); [discriminate | reflexivity].
Qed.

Lemma TrimLeftSpace_rev_fixed s :
  starts_with_space_rev s = false -> TrimLeftSpace_rev s = s.
Proof.
  destruct s as [|c [|b [|a s3]]]; simpl; try reflexivity.
  - destruct (asciiSpace c); [discriminate | reflexivity].
  - destruct (asciiSpace c); [discriminate|].
    destruct (space2 b c); [discriminate | reflexivity].
  - destruct (asciiSpace c); [discriminate|].
    destruct (space2 b c); [discriminate|].
    destruct (space3 a b c); [discriminate | reflexivity].
Qed.

(** A string that does not start with white space has no prefix that
    does. *)
Lemma starts_with_space_prefix p q :
  starts_with_space (p ++ q) = false -> starts_with_space p = false.
Proof.
  destruct p as [|a [|b [|c p]]]; simpl; try reflexivity.
  - destruct (asciiSpace a); [discriminate | reflexivity].
  - destruct (asciiSpace a); [discriminate|].
    destruct (space2 a b); [discriminate | reflexivity].
  - auto.
Qed.

(** Trimming drops a prefix, and a suffix. *)
Lemma TrimLeftSpace_suffix s : exists pre, s = pre ++ TrimLeftSpace s.
Proof.
  apply (TrimLeftSpace_cases (fun s r => exists pre, s = pre ++ r)).
  - intros a s1 _ [pre H]. exists (a :: pre). simpl. now f_equal.
  - intros a b s2 _ _ [pre H]. exists (a :: b :: pre). simpl. now do 2 f_equal.
  - intros a b c s3 _ _ _ [pre H]. exists (a :: b :: c :: pre). simpl.
    now do 3 f_equal.
  - intros s0 _. exists []. reflexivity.
Qed.

Lemma TrimLeftSpace_rev_suffix s : exists pre, s = pre ++ TrimLeftSpace_rev s.
Proof.
  apply (TrimLeftSpace_rev_cases (fun s r => exists pre, s = pre ++ r)).
  - intros a s1 _ [pre H]. exists (a :: pre). simpl. now f_equal.
  - intros a b s2 _ _ [pre H]. exists (a :: b :: pre). simpl. now do 2 f_equal.
  - intros a b c s3 _ _ _ [pre H]. exists (a :: b :: c :: pre). simpl.
    now do 3 f_equal.
  - intros s0 _. exists []. reflexivity.
Qed.

Lemma TrimRightSpace_prefix s : exists post, s = TrimRightSpace s ++ post.
Proof.
  unfold TrimRightSpace.
  destruct (TrimLeftSpace_rev_suffix (rev s)) as [pre H].
  exists (rev pre). rewrite <- rev_app_distr, <- H. now rewrite rev_involutive.
Qed.

Lemma TrimSpace_infix s : exists pre post, s = pre ++ TrimSpace s ++ post.
Proof.
  unfold TrimSpace.
  destruct (TrimLeftSpace_suffix s) as [pre Hpre].
  destruct (TrimRightSpace_prefix (TrimLeftSpace s)) as [post Hpost].
  exists pre, post. now rewrite <- Hpost.
Qed.

Lemma TrimSpace_In c s : In c (TrimSpace s) -> In c s.
Proof.
  destruct (TrimSpace_infix s) as (pre & post & H). intros Hin.
  rewrite H. apply in_or_app. right. apply in_or_app. now left.
Qed.

Lemma TrimRightSpace_idem s :
  TrimRightSpace (TrimRightSpace s) = TrimRightSpace s.
Proof.
  unfold TrimRightSpace. rewrite rev_involutive.
  now rewrite (TrimLeftSpace_rev_fixed _ (TrimLeftSpace_rev_done (rev s))).
Qed.

(** Trimming what is trimmed changes nothing. *)
Lemma TrimSpace_idem s : TrimSpace (TrimSpace s) = TrimSpace s.
Proof.
  unfold TrimSpace.
  destruct (TrimRightSpace_prefix (TrimLeftSpace s)) as [post Hpost].
  assert (H : starts_with_space (TrimRightSpace (TrimLeftSpace s)) = false).
  { apply (starts_with_space_prefix _ post). rewrite <- Hpost.
    apply TrimLeftSpace_done. }
  rewrite (TrimLeftSpace_fixed _ H). apply TrimRightSpace_idem.
Qed.

End TrimSpaceFacts.

Section CleanLines.

Lemma byte_eqb_refl c : Byte.eqb c c = true.
Proof. now apply Byte.byte_dec_lb. Qed.

Lemma byte_eqb_neq c x : c <> x -> Byte.eqb c x = false.
Proof.
  intros H. destruct (Byte.eqb c x) eqn:E; [|reflexivity].
  now apply Byte.byte_dec_bl in E.
Qed.

Lemma before_semicolon_In c s : In c (before_semicolon s) -> In c s.
Proof.
  induction s as [|x s IH]; simpl; [tauto|].
  destruct (Byte.eqb x semicolon); simpl; [tauto|].
  intros [H|H]; [now left | right; auto].
Qed.

Lemma before_semicolon_clear s : ~ In semicolon (before_semicolon s).
Proof.
  induction s as [|x s IH]; simpl; [tauto|].
  destruct (Byte.eqb x semicolon) eqn:E; simpl; [tauto|].
  intros [H|H]; [|auto]. subst x. now rewrite byte_eqb_refl in E.
Qed.

Lemma before_semicolon_fixed s : ~ In semicolon s -> before_semicolon s = s.
Proof.
  induction s as [|x s IH]; simpl; intros H; [reflexivity|].
  rewrite byte_eqb_neq by (intros ->; apply H; now left).
  f_equal. apply IH. intros Hs. apply H. now right.
Qed.

(** A physical line holds no newline. *)
Lemma physical_lines_from_no_LF p : forall cur x,
  ~ In LF cur -> In x (physical_lines_from cur p) -> ~ In LF x.
Proof.
  induction p as [|c p IH]; simpl; intros cur x Hcur Hx.
  - destruct (is_empty cur); simpl in Hx; [tauto|].
    destruct Hx as [<-|[]]. assumption.
  - destruct (Byte.eqb c LF) eqn:E.
    + destruct Hx as [<-|Hx]; [assumption|]. apply (IH [] x); auto.
    + apply (IH (cur ++ [c]) x); [|assumption].
      intros H. apply in_app_or in H as [H|[H|[]]]; [auto|].
      subst c. now rewrite byte_eqb_refl in E.
Qed.

(** A line followed by its newline is one physical line. *)
Lemma physical_lines_from_terminated l : forall cur,
  ~ In LF l -> physical_lines_from cur (l ++ [LF]) = [cur ++ l].
Proof.
  induction l as [|c l IH]; simpl; intros cur H.
  - now rewrite app_nil_r.
  - rewrite byte_eqb_neq by (intros ->; apply H; now left).
    rewrite IH by (intros Hl; apply H; now right).
    now rewrite <- app_assoc.
Qed.

Lemma command_lines_In content l :
  In l (command_lines content) ->
  l <> [] /\
  exists x, In x (physical_lines content) /\ l = TrimSpace (before_semicolon x).
Proof.
  unfold command_lines. intros H.
  apply filter_In in H as [H Hne]. apply in_map_iff in H as (x & <- & Hx).
  split; [|now exists x].
  intros Hnil. now rewrite Hnil in Hne.
Qed.

(** What makes a line a Command Line. *)
Lemma command_lines_clean content l :
  In l (command_lines content) ->
  l <> [] /\ ~ In semicolon l /\ ~ In LF l /\ TrimSpace l = l.
Proof.
  intros H. apply command_lines_In in H as (Hne & x & Hx & ->).
  split; [assumption|]. split; [|split].
  - intros H. apply TrimSpace_In in H. now apply before_semicolon_clear in H.
  - intros H. apply TrimSpace_In, before_semicolon_In in H.
    revert H. apply (physical_lines_from_no_LF content [] x); auto.
  - apply TrimSpace_idem.
Qed.

Lemma command_lines_join lines :
  Forall (fun l => l <> [] /\ ~ In semicolon l /\ ~ In LF l /\ TrimSpace l = l)
         lines ->
  command_lines (join_lines lines) = lines.
Proof.
  induction 1 as [|l lines (Hne & Hsc & HLF & Htrim) _ IH]; [reflexivity|].
  unfold join_lines in *. simpl. rewrite <- app_assoc. simpl.
  rewrite command_lines_app, IH. unfold command_lines at 1, physical_lines.
  rewrite physical_lines_from_terminated by assumption. simpl.
  rewrite before_semicolon_fixed, Htrim by assumption.
  destruct l; [now elim Hne | reflexivity].
Qed.

Lemma wire_serialSendChan lines :
  wire (serialSendChan lines) = join_lines lines.
Proof.
  induction lines as [|l lines IH]; [reflexivity|].
  unfold wire, join_lines in *. simpl. rewrite IH.
  now rewrite <- app_assoc.
Qed.

End CleanLines.

(** X1. Every line the Line Source yields is a Command Line: it is not
    empty, holds no [';'] and no newline, and has no white space left to
    trim at either end. *)
Theorem gcodeLines_yields_clean_lines (content l : bytes) :
  In l (fst (gcodeLines (os_File content))) ->
  l <> [] /\ ~ In semicolon l /\ ~ In LF l /\ TrimSpace l = l.
Proof.
  rewrite gcodeLines_spec. apply command_lines_clean.
Qed.

Lemma gcodeLines_yields_clean_lines_witness :
  to_bytes "G1 X10" <> [] /\ ~ In semicolon (to_bytes "G1 X10") /\
  ~ In LF (to_bytes "G1 X10") /\ TrimSpace (to_bytes "G1 X10") = to_bytes "G1 X10".
Proof.
  apply (gcodeLines_yields_clean_lines (to_bytes "  G1 X10 ; move
") (to_bytes "G1 X10")).
  simpl. left. reflexivity.
Defined.

(** X2. When reading the file fails with another error than the end of
    the input, the Line Source has yielded the command lines of all that
    was read before, the chunk cut short by the failure included, and the
    process is stopped with that error instead of the channel being closed
    normally. *)
Theorem gcodeLines_read_failure_is_fatal (data : bytes) (msg : string) :
  gcodeLines (Reader data (IOError msg)) =
  (command_lines data, Fatal (Some (IOError msg))).
Proof.
  unfold gcodeLines. now rewrite gcodeLines_loop_spec.
Qed.

(** X3. The lines of a file made of two parts, the first ended by a
    newline, are the lines of the first part followed by the lines of the
    second: a comment or blank space never reaches over a newline. *)
Theorem gcodeLines_of_two_parts (a b : bytes) :
  fst (gcodeLines (os_File (a ++ LF :: b))) =
  fst (gcodeLines (os_File (a ++ [LF]))) ++ fst (gcodeLines (os_File b)).
Proof.
  rewrite !gcodeLines_spec. apply command_lines_app.
Qed.

(** X4. What the Transport Writer puts on the port for lines yielded by
    the Line Source is a command file that the Line Source reads back as
    these same lines. *)
Theorem port_bytes_read_back (content : bytes) (k : nat) :
  gcodeLines
    (os_File (wire (serialSendChan
                      (firstn k (fst (gcodeLines (os_File content))))))) =
  (firstn k (fst (gcodeLines (os_File content))), Closed).
Proof.
  rewrite !gcodeLines_spec. cbn [fst]. rewrite wire_serialSendChan.
  rewrite command_lines_join; [reflexivity|].
  apply Forall_forall. intros l Hl. apply (command_lines_clean content).
  rewrite <- (firstn_skipn k (command_lines content)).
  apply in_or_app. now left.
Qed.

(** ** More on the Fixed Sequence Source *)

Section StopSource.

Variable e : error.

Lemma read_until_terminated l rest :
  ~ In LF l -> read_until LF e (l ++ LF :: rest) = (l ++ [LF], None, rest).
Proof.
  induction l as [|c l IH]; simpl; intros H.
  - reflexivity.
  - rewrite byte_eqb_neq by (intros ->; apply H; now left).
    now rewrite IH by (intros Hl; apply H; now right).
Qed.

Lemma read_until_unterminated t :
  ~ In LF t -> read_until LF e t = (t, Some e, []).
Proof.
  induction t as [|c t IH]; simpl; intros H.
  - reflexivity.
  - rewrite byte_eqb_neq by (intros ->; apply H; now left).
    now rewrite IH by (intros Hl; apply H; now right).
Qed.

End StopSource.

(** One pass of the loop of [stopGCode]. *)
Lemma stopGCode_loop_pass buf :
  stopGCode_loop buf =
  match ReadBytes buf LF with
  | (ln, Some e, _) => (send_line ln [], Some e)
  | (ln, None, buf') =>
      let '(more, err) := stopGCode_loop buf' in (send_line ln more, err)
  end.
Proof.
  funelim (stopGCode_loop buf); clear Heqcall;
    match goal with H : sigmaI _ _ _ = _ |- _ => clear H end.
  all: match goal with H : ReadBytes _ _ = _ |- _ => now rewrite H end.
Qed.

Lemma send_line_terminated l more :
  send_line (l ++ [LF]) more = if is_empty l then more else l :: more.
Proof.
  unfold send_line, drop_last. rewrite length_app. simpl.
  destruct l as [|c l]; [reflexivity|].
  replace (List.length (c :: l) + 1 - 1) with (List.length (c :: l)) by lia.
  replace (Nat.ltb 1 (List.length (c :: l) + 1)) with true
    by (symmetry; apply Nat.ltb_lt; simpl; lia).
  now rewrite firstn_app, Nat.sub_diag, firstn_all, app_nil_r.
Qed.

Lemma stopGCode_loop_lines e lines : forall tail,
  Forall (fun l => ~ In LF l) lines -> ~ In LF tail ->
  stopGCode_loop (Reader (join_lines lines ++ tail) e) =
  (filter (fun l => negb (is_empty l)) lines ++ send_line tail [], Some e).
Proof.
  induction lines as [|l lines IH]; intros tail Hl Ht.
  - rewrite stopGCode_loop_pass. unfold ReadBytes. simpl.
    now rewrite read_until_unterminated.
  - inversion Hl as [|? ? Hl1 Hl2]; subst.
    rewrite stopGCode_loop_pass. unfold ReadBytes, join_lines. simpl.
    rewrite <- !app_assoc. simpl.
    rewrite read_until_terminated by assumption.
    fold (join_lines lines). rewrite (IH tail Hl2 Ht).
    rewrite send_line_terminated. now destruct l.
Qed.

(** X5. Lines without newline in them, written each with its newline, are
    delivered by the splitting of [stopGCode] as they are and in order,
    except the empty ones, which are left out. *)
Theorem stopGCode_splits_terminated_lines (lines : list bytes) :
  Forall (fun l => ~ In LF l) lines ->
  stopGCode_of (join_lines lines) =
  (filter (fun l => negb (is_empty l)) lines, None).
Proof.
  intros H. unfold stopGCode_of, NewBuffer.
  rewrite <- (app_nil_r (join_lines lines)).
  rewrite stopGCode_loop_lines by (auto; simpl; tauto).
  now rewrite app_nil_r.
Qed.

Lemma stopGCode_splits_terminated_lines_witness :
  stopGCode_of (join_lines [to_bytes "M107"; []; to_bytes "G1 Z50"]) =
  ([to_bytes "M107"; to_bytes "G1 Z50"], None).
Proof.
  apply (stopGCode_splits_terminated_lines
           [to_bytes "M107"; []; to_bytes "G1 Z50"]).
  repeat constructor; simpl; intuition discriminate.
Defined.

(** X6. The splitting of [stopGCode] cuts the last byte of every chunk it
    reads: when the text does not end with a newline, its last line is
    delivered without its own last byte, and not at all when it is a single
    byte. *)
Theorem stopGCode_cuts_unterminated_tail (lines : list bytes) (tail : bytes) :
  Forall (fun l => ~ In LF l) lines -> ~ In LF tail ->
  stopGCode_of (join_lines lines ++ tail) =
  (filter (fun l => negb (is_empty l)) lines ++
   (if Nat.ltb 1 (List.length tail) then [removelast tail] else []),
   None).
Proof.
  intros Hl Ht. unfold stopGCode_of, NewBuffer.
  rewrite stopGCode_loop_lines by assumption.
  unfold send_line, drop_last.
  rewrite removelast_firstn_len, Nat.sub_1_r. reflexivity.
Qed.

Lemma stopGCode_cuts_unterminated_tail_witness :
  stopGCode_of (join_lines [to_bytes "M107"] ++ to_bytes "M84") =
  ([to_bytes "M107"; to_bytes "M8"], None).
Proof.
  apply (stopGCode_cuts_unterminated_tail [to_bytes "M107"] (to_bytes "M84")).
  - repeat constructor; simpl; intuition discriminate.
  - simpl; intuition discriminate.
Defined.

(** ** More on the Transport Reader *)

Section ReplyBlock.

Variable e : option error.

Lemma string_eqb_neq a b : a <> b -> String.eqb a b = false.
Proof. intros H. now apply String.eqb_neq. Qed.

Lemma serialRecv_from_to_ok pre : forall post lines,
  ~ In "ok" pre ->
  serialRecv_from e (pre ++ "ok" :: post) lines =
  (lines ++ filter (fun ln => negb (String.eqb ln "")) pre, None, post,
   map (fun ln => Scan (Some ln)) (pre ++ ["ok"])).
Proof.
  induction pre as [|ln pre IH]; simpl; intros post lines H.
  - now rewrite app_nil_r.
  - rewrite string_eqb_neq by (intros ->; apply H; now left).
    rewrite IH by (intros Hp; apply H; now right).
    destruct (String.eqb ln ""); simpl; [reflexivity|].
    now rewrite <- app_assoc.
Qed.

Lemma serialRecv_from_to_end toks : forall lines,
  ~ In "ok" toks ->
  serialRecv_from e toks lines =
  (lines ++ filter (fun ln => negb (String.eqb ln "")) toks,
   Some (match e with None => EOF | Some x => x end), [],
   map (fun ln => Scan (Some ln)) toks ++ [Scan None]).
Proof.
  induction toks as [|ln toks IH]; simpl; intros lines H.
  - now rewrite app_nil_r.
  - rewrite string_eqb_neq by (intros ->; apply H; now left).
    rewrite IH by (intros Hp; apply H; now right).
    destruct (String.eqb ln ""); simpl; [reflexivity|].
    now rewrite <- app_assoc.
Qed.

End ReplyBlock.

(** X7. A call of [serialRecv] takes the lines of the transport up to the
    first ["ok"], which it takes too, and returns those that are not empty,
    without error; the scanner is left on the line after that ["ok"].
    When no ["ok"] comes before the end of the transport, it takes all the
    lines, returns those that are not empty, and the error of the scanner,
    or [io.EOF] when the scanner has none. *)
Theorem serialRecv_reply_block (e : option error) (pre : list string) :
  ~ In "ok" pre ->
  (forall post,
      serialRecv (Scanner (pre ++ "ok" :: post) e) =
      (filter (fun ln => negb (String.eqb ln "")) pre, None, Scanner post e,
       map (fun ln => Scan (Some ln)) (pre ++ ["ok"]))) /\
  serialRecv (Scanner pre e) =
  (filter (fun ln => negb (String.eqb ln "")) pre,
   Some (final_error (Scanner pre e)), Scanner [] e,
   map (fun ln => Scan (Some ln)) pre ++ [Scan None]).
Proof.
  intros H. split; [intros post|]; unfold serialRecv; simpl.
  - now rewrite serialRecv_from_to_ok.
  - now rewrite serialRecv_from_to_end.
Qed.

Lemma serialRecv_reply_block_witness :
  serialRecv (Scanner (["echo:busy"; ""] ++ "ok" :: ["T:20"]) None) =
  (["echo:busy"], None, Scanner ["T:20"] None,
   [Scan (Some "echo:busy"); Scan (Some ""); Scan (Some "ok")]).
Proof.
  apply (proj1 (serialRecv_reply_block None ["echo:busy"; ""]
                  ltac:(simpl; intuition discriminate))).
Defined.

(** ** The Interactive Input Source *)

(** X8. Ends of input on the console lose no line: as long as no scanner
    fails, the lines of one scanner after the other are put on the channel
    in order.  The first scanner that fails still gives its lines, then the
    process is stopped with its error and later input is not read. *)
Theorem userInput_across_ends_of_input (good : list scanner) :
  Forall (fun s => scan_err s = None) good ->
  userInput good = (flat_map tokens good, None) /\
  forall bad err later,
    scan_err bad = Some err ->
    userInput (good ++ bad :: later) =
    (flat_map tokens good ++ tokens bad, Some err).
Proof.
  induction 1 as [|s good Hs _ [IH1 IH2]]; simpl.
  - split; [reflexivity|]. intros bad err later ->. reflexivity.
  - rewrite Hs, IH1. split; [reflexivity|].
    intros bad err later Hbad. rewrite (IH2 bad err later Hbad).
    now rewrite app_assoc.
Qed.

Lemma userInput_across_ends_of_input_witness :
  userInput ([console_a] ++ console_b :: [console_a]) =
  (["h"; "M105"; "M114"], Some (IOError "console")).
Proof.
  apply (proj2 (userInput_across_ends_of_input [console_a]
                  ltac:(repeat constructor)) console_b (IOError "console")
               [console_a]).
  reflexivity.
Defined.

(** ** More on the Control Menu *)

Lemma as_choice_None ans :
  as_choice ans = None ->
  String.eqb ans "c" = false /\ String.eqb ans "s" = false /\
  String.eqb ans "a" = false /\ String.eqb ans "h" = false.
Proof.
  unfold as_choice.
  destruct (String.eqb ans "c"); [discriminate|].
  destruct (String.eqb ans "s"); [discriminate|].
  destruct (String.eqb ans "a"); [discriminate|].
  destruct (String.eqb ans "h"); [discriminate|]. auto.
Qed.

(** X9. The menu returns the first answer that is one of [c], [s], [a],
    [h], as the choice it stands for, and leaves the lines after it
    unread; each answer before it gets the list of ports (for [l]) or
    "invalid entry", and the menu again.  Without such an answer the menu
    does not return. *)
Theorem controlMenu_returns_first_choice (rejected : list string) :
  Forall (fun ans => as_choice ans = None) rejected ->
  controlMenu rejected =
    (None, flat_map reprompt rejected ++ [Say menu_text], []) /\
  forall ans c rest,
    as_choice ans = Some c ->
    controlMenu (rejected ++ ans :: rest) =
    (Some c, flat_map reprompt rejected ++ [Say menu_text; RecvUser ans], rest).
Proof.
  induction 1 as [|a rejected Ha _ [IH1 IH2]].
  - split; [reflexivity|]. intros ans c rest. simpl. unfold as_choice.
    destruct (String.eqb ans "c"); [now intros [= <-]|].
    destruct (String.eqb ans "s"); [now intros [= <-]|].
    destruct (String.eqb ans "a"); [now intros [= <-]|].
    destruct (String.eqb ans "h"); [now intros [= <-]|]. discriminate.
  - apply as_choice_None in Ha as (Hc & Hs & Ha & Hh).
    split; [|intros ans c rest Hans]; simpl; rewrite Hc, Hs, Ha, Hh.
    + now rewrite IH1.
    + now rewrite (IH2 ans c rest Hans).
Qed.

Lemma controlMenu_returns_first_choice_witness :
  controlMenu (["l"; "x"] ++ "s" :: ["c"]) =
  (Some ctrlStop,
   flat_map reprompt ["l"; "x"] ++ [Say menu_text; RecvUser "s"], ["c"]).
Proof.
  apply (proj2 (controlMenu_returns_first_choice ["l"; "x"]
                  ltac:(repeat constructor)) "s" ctrlStop ["c"]).
  reflexivity.
Defined.

(** ** More on the Control Loop *)

Section Streaming.

Lemma streaming_user_line line s :
  hack_mode s = false ->
  turn (user_line line) s = (Val tt, s, [RecvUser line]).
Proof.
  destruct s as [[gf q r] lq hm g]. simpl. now intros ->.
Qed.

Lemma streaming_pulse_end s :
  hack_mode s = false -> gcode s = file_feed -> gcode_file (d s) = [] ->
  turn (pulse None) s =
  (Exit break_Loop, set_ready true s, [RecvReady None true; RecvFile None]).
Proof.
  destruct s as [[gf q r] lq hm g]. simpl. now intros -> -> ->.
Qed.

Lemma streaming_pulse_line s l c :
  hack_mode s = false -> gcode s = file_feed -> gcode_file (d s) = l :: c ->
  turn (pulse None) s =
  (Val tt, set_ready false (set_gcode_file c s),
   [RecvReady None true; RecvFile (Some l); Send l]).
Proof.
  destruct s as [[gf q r] lq hm g]. simpl. now intros -> -> ->.
Qed.

(** Plain streaming from the file channel: a line for each pulse. *)
Lemma turns_streaming evs : forall s,
  hack_mode s = false -> gcode s = file_feed ->
  forallb is_streaming evs = true ->
  sent (trace_of (turns evs s)) =
    firstn (count_pulses evs) (gcode_file (d s)) /\
  gcode_file (d (vars_of (turns evs s))) =
    skipn (count_pulses evs) (gcode_file (d s)) /\
  result_of (turns evs s) =
    if Nat.leb (count_pulses evs) (List.length (gcode_file (d s)))
    then Val tt else Exit break_Loop.
Proof.
  induction evs as [|ev evs IH]; intros s Hm Hg Hev.
  - now repeat split.
  - simpl in Hev. apply andb_true_iff in Hev as [Hev Hevs].
    destruct ev as [line| | [err|] |]; try discriminate.
    + cbn [turns]. unfold bind. rewrite streaming_user_line by assumption.
      destruct (IH s Hm Hg Hevs) as (H1 & H2 & H3).
      destruct (turns evs s) as [[r s2] t2].
      unfold trace_of, vars_of, result_of, count_pulses in *. simpl in *.
      now repeat split.
    + cbn [turns]. unfold bind. destruct (gcode_file (d s)) as [|l c] eqn:Ef.
      * rewrite streaming_pulse_end by assumption.
        unfold trace_of, vars_of, result_of. simpl.
        destruct s as [[gf q r] lq hm g]. simpl in *. now subst.
      * rewrite (streaming_pulse_line s l c) by assumption.
        assert (Hm1 : hack_mode (set_ready false (set_gcode_file c s)) = false)
          by (destruct s as [[gf q r] lq hm g]; simpl in *; assumption).
        assert (Hg1 : gcode (set_ready false (set_gcode_file c s)) = file_feed)
          by (destruct s as [[gf q r] lq hm g]; simpl in *; assumption).
        destruct (IH _ Hm1 Hg1 Hevs) as (H1 & H2 & H3).
        assert (Hf : gcode_file (d (set_ready false (set_gcode_file c s))) = c)
          by (destruct s as [[gf q r] lq hm g]; reflexivity).
        rewrite Hf in *.
        destruct (turns evs _) as [[r1 s2] t2].
        unfold trace_of, vars_of, result_of, count_pulses in *. simpl in *.
        now rewrite H1, H2, H3.
Qed.

Lemma loop_sent start now d0 evs :
  sent (done_of (loop start now d0 evs)) =
  sent (trace_of (turns evs (Vars d0 [] false file_feed))).
Proof.
  rewrite loop_unfold. destruct (turns evs _) as [[r s] t].
  unfold done_of, trace_of.
  destruct r as [[]|[]]; simpl; rewrite ?sent_app; simpl;
    now rewrite ?app_nil_r.
Qed.

Lemma loop_final start now d0 evs :
  final_of (loop start now d0 evs) =
  vars_of (turns evs (Vars d0 [] false file_feed)).
Proof.
  rewrite loop_unfold. destruct (turns evs _) as [[r s] t].
  now destruct r as [[]|[]].
Qed.

Lemma loop_status start now d0 evs :
  status_of (loop start now d0 evs) =
  match result_of (turns evs (Vars d0 [] false file_feed)) with
  | Val _ => waiting
  | Exit in_menu => in_dialog
  | Exit break_Loop => stopped
  | Exit (panic_index i n) => crashed i n
  end.
Proof.
  rewrite loop_unfold. destruct (turns evs _) as [[r s] t].
  now destruct r as [[]|[]].
Qed.

End Streaming.

(** X10. As long as no interrupt comes and no pulse carries an error,
    each pulse makes the loop send the next line of the file, and what the
    operator types is received and ignored: after [k] pulses the first [k]
    lines have been sent, in order, and the file channel holds the others.
    The pulse that finds the file channel closed makes the loop return. *)
Theorem streaming_sends_file_in_order (start now : Z) (d0 : dripper)
    (evs : list event) :
  forallb is_streaming evs = true ->
  sent (done_of (loop start now d0 evs)) =
    firstn (count_pulses evs) (gcode_file d0) /\
  gcode_file (d (final_of (loop start now d0 evs))) =
    skipn (count_pulses evs) (gcode_file d0) /\
  status_of (loop start now d0 evs) =
    if Nat.leb (count_pulses evs) (List.length (gcode_file d0))
    then waiting else stopped.
Proof.
  intros Hev. rewrite loop_sent, loop_final, loop_status.
  destruct (turns_streaming evs (Vars d0 [] false file_feed)
              eq_refl eq_refl Hev) as (H1 & H2 & H3).
  simpl in *. rewrite H1, H2, H3.
  now destruct (Nat.leb _ _).
Qed.

Lemma streaming_sends_file_in_order_witness :
  sent (done_of (loop 0 0 two_line_dripper
                   [pulse None; user_line "M105"; pulse None; pulse None])) =
    [to_bytes "G28"; to_bytes "G1 X10"] /\
  gcode_file (d (final_of (loop 0 0 two_line_dripper
                   [pulse None; user_line "M105"; pulse None; pulse None]))) =
    [] /\
  status_of (loop 0 0 two_line_dripper
               [pulse None; user_line "M105"; pulse None; pulse None]) =
    stopped.
Proof.
  apply (streaming_sends_file_in_order 0 0 two_line_dripper
           [pulse None; user_line "M105"; pulse None; pulse None]).
  reflexivity.
Defined.

Lemma streaming_repeat n :
  forallb is_streaming (repeat (pulse None) n) = true /\
  count_pulses (repeat (pulse None) n) = n.
Proof.
  unfold count_pulses.
  induction n as [|n [IH1 IH2]]; simpl; [now split|].
  rewrite IH1, IH2. now split.
Qed.

(** X11. Driven by the Transport Reader alone, on a transport that ends,
    the loop sends one line of the file for the primer and one for each
    ["ok"] the device replies, as far as the file goes, and returns: at the
    end of the file or at the error pulse that ends the transport. *)
Theorem reader_paces_the_file (start now : Z) (d0 : dripper) (r : scanner) :
  sent (done_of (loop start now d0 (map pulse (pulses (serialRecvChan r))))) =
    firstn (S (completed_blocks (tokens r))) (gcode_file d0) /\
  status_of (loop start now d0 (map pulse (pulses (serialRecvChan r)))) =
    stopped.
Proof.
  rewrite loop_sent, loop_status.
  unfold serialRecvChan. simpl pulses. rewrite serialRecvChan_loop_pulses.
  set (n := completed_blocks (tokens r)).
  replace (map pulse (None :: repeat None n ++ [Some (final_error r)]))
    with (repeat (pulse None) (S n) ++ [pulse (Some (final_error r))])
    by (simpl; now rewrite map_app, map_repeat).
  rewrite turns_app.
  destruct (streaming_repeat (S n)) as [Hs Hc].
  destruct (turns_streaming (repeat (pulse None) (S n))
              (Vars d0 [] false file_feed) eq_refl eq_refl Hs)
    as (H1 & _ & H3).
  rewrite Hc in *. cbn [d gcode_file] in *.
  destruct (turns (repeat (pulse None) (S n)) _) as [[r1 s1] t1].
  unfold trace_of, result_of in *. cbn [fst snd] in *.
  destruct r1 as [[]|e1].
  - unfold turns, bind. unfold_turn. cbn [fst snd].
    rewrite sent_app, H1. simpl. now rewrite app_nil_r.
  - cbn [fst snd]. split; [assumption|].
    destruct (Nat.leb _ _); [discriminate|]. now inversion H3.
Qed.

(** X12. When the operator chooses "abort" in the menu, the loop returns
    at once: nothing is sent, the interrupt handler is not installed again,
    the channel to the Transport Writer is closed and the elapsed time is
    reported; later events are not looked at. *)
Theorem abort_stops_loop (start now : Z) (d0 : dripper)
    (evs more : list event) (stale answers : list string)
    (s : vars) (t : list action) :
  loop start now d0 evs = (waiting, s, t) ->
  choice_of answers = Some ctrlAbort ->
  loop start now d0 (evs ++ interrupt stale answers :: more) =
  (stopped, set_hack_mode false s,
   t ++ [RecvSig; SigReset] ++ map RecvUser stale ++
   snd (fst (controlMenu answers)) ++
   [Say abort; Close;
    Say (log_stop (duration.Round (duration.Since start now) duration.Second));
    SigReset]).
Proof.
  intros H Hc. apply loop_waiting in H as (t' & Ht & ->).
  rewrite loop_unfold, turns_app, Ht. cbn [turns]. unfold bind.
  unfold choice_of in Hc. unfold_turn.
  destruct (controlMenu answers) as [[c tm] rest]. simpl in Hc. subst c.
  simpl. do 3 f_equal. rewrite <- app_assoc. simpl. do 2 f_equal.
  now rewrite <- !app_assoc.
Qed.

Lemma abort_stops_loop_witness :
  loop 0 400000000 two_line_dripper
       ([pulse None] ++ interrupt ["G1 X99"] ["a"] :: [pulse None]) =
  (stopped,
   Vars (Dripper [to_bytes "G1 X10"] [] false) [] false file_feed,
   [SigNotify; Say log_start; RecvReady None true;
    RecvFile (Some (to_bytes "G28")); Send (to_bytes "G28")] ++
   [RecvSig; SigReset] ++ map RecvUser ["G1 X99"] ++
   snd (fst (controlMenu ["a"])) ++
   [Say abort; Close; Say (log_stop 0); SigReset]).
Proof.
  apply (abort_stops_loop 0 400000000 two_line_dripper
           [pulse None] [pulse None] ["G1 X99"] ["a"]
           (Vars (Dripper [to_bytes "G1 X10"] [] false) [] false file_feed)
           [SigNotify; Say log_start; RecvReady None true;
            RecvFile (Some (to_bytes "G28")); Send (to_bytes "G28")]).
  - reflexivity.
  - reflexivity.
Defined.

(** X13. While an interrupt is handled nothing is sent and the dripper is
    left as it is, its Readiness Flag too, whatever the operator types, so
    that a command in flight is still waited for afterwards.  Hacker mode
    is on after it when, and only when, the choice was hacker mode. *)
Theorem menu_pauses_sending (stale answers : list string) (s : vars) :
  sent (trace_of (turn (interrupt stale answers) s)) = [] /\
  d (vars_of (turn (interrupt stale answers) s)) = d s /\
  hack_mode (vars_of (turn (interrupt stale answers) s)) =
    match choice_of answers with Some ctrlHackerMode => true | _ => false end.
Proof.
  change (turn (interrupt stale answers)) with (on_signal stale answers).
  split; [|split].
  - apply sent_dialog, on_signal_is_dialog.
  - apply on_signal_dripper.
  - unfold choice_of. unfold_turn.
    destruct (controlMenu answers) as [[c t] rest].
    destruct c as [[]|]; reflexivity.
Qed.

Section Handler.

Lemma handler_after_app t1 : forall b t2,
  handler_after b (t1 ++ t2) =
  match handler_after b t1 with
  | Some b' => handler_after b' t2
  | None => None
  end.
Proof.
  induction t1 as [|a t1 IH]; intros b t2; simpl; [reflexivity|].
  destruct a as [| | | | | | | | |m]; try apply IH.
  - destruct b; [apply IH | reflexivity].
  - destruct m; try apply IH. destruct b; [reflexivity | apply IH].
Qed.

Lemma handler_after_flush stale b :
  handler_after b (map RecvUser stale) = Some b.
Proof. induction stale; simpl; auto. Qed.

Lemma handler_after_menu answers :
  handler_after false (snd (fst (controlMenu answers))) = Some false.
Proof.
  induction answers as [|ans rest IH]; simpl; [reflexivity|].
  destruct (String.eqb ans "c"); [reflexivity|].
  destruct (String.eqb ans "s"); [reflexivity|].
  destruct (String.eqb ans "a"); [reflexivity|].
  destruct (String.eqb ans "h"); [reflexivity|].
  destruct (controlMenu rest) as [[c t] rest']. simpl in *.
  now destruct (String.eqb ans "l").
Qed.

(** A turn entered with the handler installed goes on with it installed,
    and is in the menu with it dropped. *)
Lemma turn_handler ev s :
  exists b, handler_after true (trace_of (turn ev s)) = Some b /\
    match result_of (turn ev s) with
    | Val _ => b = true
    | Exit in_menu => b = false
    | _ => True
    end.
Proof.
  destruct s as [[gf q r] lq hm g]. destruct ev as [line|stale answers|err|].
  - exists true. unfold_turn. destruct hm; [destruct r|]; now split.
  - unfold_turn. pose proof (handler_after_menu answers) as Hm.
    destruct (controlMenu answers) as [[c t] rest]. simpl in Hm.
    destruct c as [[]|]; simpl;
      rewrite handler_after_app, handler_after_flush,
        handler_after_app, Hm; simpl; eauto.
  - exists true. unfold_turn. destruct err as [e|]; [now split|]. simpl.
    destruct hm.
    + destruct q as [|x q]; simpl; [now split|].
      destruct lq; now split.
    + destruct g as [|[|l c]]; [destruct gf|..]; now split.
  - exists true. now split.
Qed.

Lemma turns_handler evs : forall s,
  exists b, handler_after true (trace_of (turns evs s)) = Some b /\
    match result_of (turns evs s) with
    | Val _ => b = true
    | Exit in_menu => b = false
    | _ => True
    end.
Proof.
  induction evs as [|ev evs IH]; intros s.
  - exists true. now split.
  - cbn [turns]. unfold bind.
    destruct (turn_handler ev s) as (b & Hb & Hr).
    destruct (turn ev s) as [[[[]|e] s1] t1];
      unfold trace_of, result_of in *; cbn [fst snd] in *.
    + subst b. destruct (IH s1) as (b2 & Hb2 & Hr2).
      destruct (turns evs s1) as [[r2 s2] t2].
      unfold trace_of, result_of in *; cbn [fst snd] in *.
      exists b2. split; [|assumption].
      now rewrite handler_after_app, Hb.
    + exists b. now split.
Qed.

End Handler.

(** X14. Along every run, an interrupt is received only with the handler
    installed and the menu is shown only with the handler dropped, so that
    a second interrupt during the menu ends the process.  The handler is
    installed while the loop waits in its [select], and dropped while it is
    in the menu and once it has returned or crashed. *)
Theorem handler_dropped_during_menu (start now : Z) (d0 : dripper)
    (evs : list event) :
  handler_after false (done_of (loop start now d0 evs)) =
  Some (match status_of (loop start now d0 evs) with
        | waiting => true
        | _ => false
        end).
Proof.
  rewrite loop_unfold.
  destruct (turns_handler evs (Vars d0 [] false file_feed)) as (b & Hb & Hr).
  destruct (turns evs _) as [[r s] t].
  unfold trace_of, result_of, done_of, status_of in *; cbn [fst snd] in *.
  destruct r as [[]|[]]; cbn [fst snd app handler_after];
    rewrite ?handler_after_app, Hb; try subst b; reflexivity.
Qed.

Section Closing.

Lemma dialog_no_Close t : forallb is_dialog t = true -> ~ In Close t.
Proof.
  induction t as [|a t IH]; simpl; intros H; [tauto|].
  apply andb_true_iff in H as [Ha Ht].
  intros [->|Hin]; [discriminate | now apply IH].
Qed.

Lemma turn_no_Close ev s : ~ In Close (trace_of (turn ev s)).
Proof.
  destruct ev as [line|stale answers|err|].
  - destruct s as [[gf q r] lq hm g]. unfold_turn.
    destruct hm; [destruct r|]; simpl; intuition discriminate.
  - apply dialog_no_Close, on_signal_is_dialog.
  - destruct s as [[gf q r] lq hm g]. unfold_turn.
    destruct err as [e|]; [simpl; intuition discriminate|]. simpl.
    destruct hm.
    + destruct q as [|x q]; simpl; [intuition discriminate|].
      destruct lq; simpl; intuition discriminate.
    + destruct g as [|[|l c]]; [destruct gf|..]; simpl; intuition discriminate.
  - destruct s as [[gf q r] lq hm g]. simpl. intuition discriminate.
Qed.

Lemma turns_no_Close evs : forall s, ~ In Close (trace_of (turns evs s)).
Proof.
  induction evs as [|ev evs IH]; intros s; [simpl; tauto|].
  cbn [turns]. unfold bind. pose proof (turn_no_Close ev s) as H.
  destruct (turn ev s) as [[[[]|e] s1] t1]; unfold trace_of in *;
    cbn [fst snd] in *; [|assumption].
  specialize (IH s1). destruct (turns evs s1) as [[r2 s2] t2].
  cbn [fst snd] in *. intros Hin. apply in_app_or in Hin. tauto.
Qed.

End Closing.

(** X15. The channel to the Transport Writer is closed once, when the loop
    returns; after the close comes only the report of the elapsed time and
    the drop of the handler, never a send.  A loop that waits, is in the
    menu or has crashed has not closed it. *)
Theorem writer_closed_once_at_return (start now : Z) (d0 : dripper)
    (evs : list event) :
  match status_of (loop start now d0 evs) with
  | stopped =>
      exists t, ~ In Close t /\
        done_of (loop start now d0 evs) =
        t ++ [Close;
              Say (log_stop (duration.Round (duration.Since start now)
                                            duration.Second));
              SigReset]
  | _ => ~ In Close (done_of (loop start now d0 evs))
  end.
Proof.
  rewrite loop_unfold.
  pose proof (turns_no_Close evs (Vars d0 [] false file_feed)) as H.
  destruct (turns evs _) as [[r s] t].
  unfold trace_of, done_of, status_of in *; cbn [fst snd] in *.
  destruct r as [[]|[]]; cbn [fst snd].
  - simpl. intuition discriminate.
  - exists ([SigNotify; Say log_start] ++ t). split.
    + simpl. intuition discriminate.
    + now rewrite <- app_assoc.
  - intros Hin. simpl in Hin. destruct Hin as [Hin|[Hin|Hin]];
      try discriminate.
    apply in_app_or in Hin as [Hin|Hin]; [tauto|].
    simpl in Hin. intuition discriminate.
  - simpl. intuition discriminate.
Qed.

Section HackerMode.

Lemma turns_local_hack_queue evs : forall s,
  hack_queue (vars_of (turns evs s)) = hack_queue s.
Proof.
  induction evs as [|ev evs IH]; intros s; [reflexivity|].
  cbn [turns]. unfold bind. pose proof (local_hack_queue_unchanged ev s) as H.
  destruct (turn ev s) as [[[[]|e] s1] t1]; unfold vars_of in *;
    cbn [fst snd] in *; [|assumption].
  specialize (IH s1). destruct (turns evs s1) as [[r2 s2] t2].
  cbn [fst snd] in *. congruence.
Qed.

(** The local [hack_queue] is empty whenever [loop] waits. *)
Lemma loop_waiting_local_queue start now d0 evs s t :
  loop start now d0 evs = (waiting, s, t) -> hack_queue s = [].
Proof.
  intros H. apply loop_waiting in H as (t' & Ht & _).
  pose proof (turns_local_hack_queue evs (Vars d0 [] false file_feed)) as Hq.
  rewrite Ht in Hq. exact Hq.
Qed.

Lemma hacker_line_and_reply l s :
  hack_mode s = true -> ready (d s) = true -> d_hack_queue (d s) = [] ->
  turns [user_line l; pulse None] s =
  (Val tt, s, [RecvUser l; Send (to_bytes l); RecvReady None true]).
Proof.
  destruct s as [[gf q r] lq hm g]. simpl. now intros -> -> ->.
Qed.

Lemma turns_one_per_reply lines : forall s,
  hack_mode s = true -> ready (d s) = true -> d_hack_queue (d s) = [] ->
  turns (one_per_reply lines) s =
  (Val tt, s,
   flat_map (fun l => [RecvUser l; Send (to_bytes l); RecvReady None true])
            lines).
Proof.
  induction lines as [|l lines IH]; intros s Hm Hr Hq; [reflexivity|].
  change (one_per_reply (l :: lines))
    with ([user_line l; pulse None] ++ one_per_reply lines).
  rewrite turns_app, hacker_line_and_reply, IH by assumption. reflexivity.
Qed.

End HackerMode.

(** X16. In hacker mode, with the Readiness Flag true and nothing queued,
    an operator who types one line per reply has each line sent as it is
    typed, in the order typed, and the loop is then back in the state it
    was in. *)
Theorem hacker_lines_one_per_reply (start now : Z) (d0 : dripper)
    (evs : list event) (s : vars) (t : list action) (lines : list string) :
  loop start now d0 evs = (waiting, s, t) ->
  hack_mode s = true -> ready (d s) = true -> d_hack_queue (d s) = [] ->
  loop start now d0 (evs ++ one_per_reply lines) =
  (waiting, s,
   t ++ flat_map (fun l => [RecvUser l; Send (to_bytes l); RecvReady None true])
                 lines).
Proof.
  intros H Hm Hr Hq. apply loop_waiting in H as (t' & Ht & ->).
  rewrite loop_unfold, turns_app, Ht, turns_one_per_reply by assumption.
  now rewrite <- app_assoc.
Qed.

Lemma hacker_lines_one_per_reply_witness :
  loop 0 0 two_line_dripper
       ([pulse None; interrupt [] ["h"]; pulse None] ++
        one_per_reply ["M105"; "M114"]) =
  (waiting,
   Vars (Dripper [to_bytes "G1 X10"] [] true) [] true file_feed,
   [SigNotify; Say log_start; RecvReady None true;
    RecvFile (Some (to_bytes "G28")); Send (to_bytes "G28");
    RecvSig; SigReset; Say menu_text; RecvUser "h"; Say hacker_mode; SigNotify;
    RecvReady None true] ++
   flat_map (fun l => [RecvUser l; Send (to_bytes l); RecvReady None true])
            ["M105"; "M114"]).
Proof.
  apply (hacker_lines_one_per_reply 0 0 two_line_dripper
           [pulse None; interrupt [] ["h"]; pulse None]
           (Vars (Dripper [to_bytes "G1 X10"] [] true) [] true file_feed)
           [SigNotify; Say log_start; RecvReady None true;
            RecvFile (Some (to_bytes "G28")); Send (to_bytes "G28");
            RecvSig; SigReset; Say menu_text; RecvUser "h"; Say hacker_mode;
            SigNotify; RecvReady None true]
           ["M105"; "M114"]).
  - reflexivity.
  - reflexivity.
  - reflexivity.
  - reflexivity.
Defined.

(** X17. In hacker mode, a pulse without error that finds a line in the
    Pending Queue makes the loop panic on the index [hack_queue[0]] of its
    local, always empty slice: nothing is sent, the queue keeps its lines,
    the channel to the Transport Writer is not closed, and only the
    deferred drop of the handler still runs. *)
Theorem queued_line_crashes_loop (start now : Z) (d0 : dripper)
    (evs more : list event) (s : vars) (t : list action) :
  loop start now d0 evs = (waiting, s, t) ->
  hack_mode s = true -> d_hack_queue (d s) <> [] ->
  loop start now d0 (evs ++ pulse None :: more) =
  (crashed 0 0, set_ready true s, t ++ [RecvReady None true; SigReset]).
Proof.
  intros H Hm Hq.
  pose proof (loop_waiting_local_queue _ _ _ _ _ _ H) as Hl.
  apply loop_waiting in H as (t' & Ht & ->).
  rewrite loop_unfold, turns_app, Ht. cbn [turns]. unfold bind.
  rewrite (queued_line_panics s Hm Hl Hq).
  now rewrite <- app_assoc.
Qed.

Lemma queued_line_crashes_loop_witness :
  loop 0 0 two_line_dripper
       ([pulse None; interrupt [] ["h"]; user_line "M105"; user_line "M114"] ++
        pulse None :: [pulse None]) =
  (crashed 0 0,
   Vars (Dripper [to_bytes "G1 X10"] ["M105"; "M114"] true) [] true file_feed,
   [SigNotify; Say log_start; RecvReady None true;
    RecvFile (Some (to_bytes "G28")); Send (to_bytes "G28");
    RecvSig; SigReset; Say menu_text; RecvUser "h"; Say hacker_mode; SigNotify;
    RecvUser "M105"; RecvUser "M114"] ++ [RecvReady None true; SigReset]).
Proof.
  apply (queued_line_crashes_loop 0 0 two_line_dripper
           [pulse None; interrupt [] ["h"]; user_line "M105"; user_line "M114"]
           [pulse None]
           (Vars (Dripper [to_bytes "G1 X10"] ["M105"; "M114"] false)
                 [] true file_feed)
           [SigNotify; Say log_start; RecvReady None true;
            RecvFile (Some (to_bytes "G28")); Send (to_bytes "G28");
            RecvSig; SigReset; Say menu_text; RecvUser "h"; Say hacker_mode;
            SigNotify; RecvUser "M105"; RecvUser "M114"]).
  - reflexivity.
  - reflexivity.
  - discriminate.
Defined.

Section Origins.

Lemma turn_feeds_ok ev s :
  feeds_ok s ->
  feeds_ok (vars_of (turn ev s)) /\
  incl (gcode_file (d (vars_of (turn ev s)))) (gcode_file (d s)).
Proof.
  intros [Hq Hg]. destruct s as [[gf q r] lq hm g]. simpl in Hq, Hg. subst lq.
  unfold feeds_ok.
  assert (Hstop : forall c, stop_feed stop_lines = stop_feed c ->
                            incl c stop_lines)
    by (intros c Hc; inversion Hc; apply incl_refl).
  assert (Hfile : forall c, file_feed = stop_feed c -> incl c stop_lines)
    by (intros c Hc; discriminate).
  destruct ev as [line|stale answers|err|].
  - unfold_turn. destruct hm; [destruct r|]; simpl;
      (split; [split; [reflexivity|assumption] | apply incl_refl]).
  - unfold_turn. rewrite stopGCode_eq.
    destruct (controlMenu answers) as [[c t] rest].
    destruct c as [[]|]; simpl;
      (split; [split; [reflexivity|assumption] | apply incl_refl]).
  - unfold_turn. destruct err as [e|]; simpl.
    { split; [split; [reflexivity|assumption] | apply incl_refl]. }
    destruct hm.
    + destruct q as [|x q]; simpl;
        (split; [split; [reflexivity|assumption] | apply incl_refl]).
    + destruct g as [|[|l c]]; [destruct gf as [|l c]|..]; simpl.
      * split; [split; [reflexivity|assumption] | apply incl_refl].
      * split; [split; [reflexivity|assumption] | apply incl_tl, incl_refl].
      * split; [split; [reflexivity|assumption] | apply incl_refl].
      * split; [split; [reflexivity|] | apply incl_refl].
        intros c0 Hc. inversion Hc; subst c0.
        intros x Hx. apply (Hg (l :: c) eq_refl). now right.
  - simpl. split; [split; [reflexivity|assumption] | apply incl_refl].
Qed.

Lemma turn_sent_origin ev s l :
  feeds_ok s ->
  In l (sent (trace_of (turn ev s))) ->
  In l (gcode_file (d s)) \/ In l stop_lines \/
  exists x, ev = user_line x /\ l = to_bytes x.
Proof.
  unfold feeds_ok. remember stop_lines as SL eqn:HSL.
  intros [Hq Hg]. destruct s as [[gf q r] lq hm g]. simpl in Hq, Hg. subst lq.
  destruct ev as [line|stale answers|err|].
  - unfold_turn. destruct hm; [destruct r|]; simpl; try tauto.
    intros [<-|[]]. right; right. now exists line.
  - change (turn (interrupt stale answers)) with (on_signal stale answers).
    now rewrite sent_dialog by apply on_signal_is_dialog.
  - unfold_turn. destruct err as [e|]; simpl; [tauto|].
    destruct hm.
    + destruct q as [|x q]; simpl; tauto.
    + destruct g as [|[|x c]]; [destruct gf as [|x c]|..]; simpl; try tauto.
      intros [<-|[]]. right; left. apply (Hg (x :: c) eq_refl). now left.
  - simpl. tauto.
Qed.

Lemma turns_sent_origin evs : forall s l,
  feeds_ok s ->
  In l (sent (trace_of (turns evs s))) ->
  In l (gcode_file (d s)) \/ In l stop_lines \/
  exists x, In x (typed evs) /\ l = to_bytes x.
Proof.
  induction evs as [|ev evs IH]; intros s l Hs Hin; [now simpl in Hin|].
  cbn [turns] in Hin. unfold bind in Hin.
  destruct (turn_feeds_ok ev s Hs) as [Hs1 Hincl].
  pose proof (turn_sent_origin ev s l Hs) as H1.
  assert (Hty : forall x, ev = user_line x -> In x (typed (ev :: evs)))
    by (intros x ->; now left).
  assert (Hty2 : forall x, In x (typed evs) -> In x (typed (ev :: evs)))
    by (intros x Hx; unfold typed; simpl; apply in_or_app; now right).
  destruct (turn ev s) as [[[[]|e] s1] t1]; unfold trace_of, vars_of in *;
    cbn [fst snd] in *.
  - specialize (IH s1 l Hs1). destruct (turns evs s1) as [[r2 s2] t2].
    cbn [fst snd] in *. rewrite sent_app in Hin.
    apply in_app_or in Hin as [Hin|Hin].
    + destruct (H1 Hin) as [H|[H|(x & -> & ->)]]; auto.
      right; right. exists x. auto.
    + destruct (IH Hin) as [H|[H|(x & Hx & ->)]]; auto.
      right; right. exists x. auto.
  - destruct (H1 Hin) as [H|[H|(x & -> & ->)]]; auto.
    right; right. exists x. auto.
Qed.

End Origins.

(** X18. Whatever the events, a line handed to the Transport Writer is a
    line of the file channel, a line of the stop sequence, or a line the
    operator typed outside the menu: nothing else is ever sent, and no
    answer given to the menu is. *)
Theorem nothing_else_is_sent (start now : Z) (d0 : dripper)
    (evs : list event) (l : bytes) :
  In l (sent (done_of (loop start now d0 evs))) ->
  In l (gcode_file d0) \/ In l stop_lines \/
  exists x, In x (typed evs) /\ l = to_bytes x.
Proof.
  rewrite loop_sent. intros H.
  apply (turns_sent_origin evs (Vars d0 [] false file_feed) l); [|exact H].
  split; [reflexivity|]. intros c [=].
Qed.

Lemma nothing_else_is_sent_witness :
  In (to_bytes "G28") (gcode_file two_line_dripper) \/
  In (to_bytes "G28") stop_lines \/
  exists x, In x (typed [pulse None; interrupt ["G1 X99"] ["x"; "c"]]) /\
            to_bytes "G28" = to_bytes x.
Proof.
  apply (nothing_else_is_sent 0 0 two_line_dripper
           [pulse None; interrupt ["G1 X99"] ["x"; "c"]] (to_bytes "G28")).
  simpl. left. reflexivity.
Defined.

(** X19. After the menu choice "stop" the next five pulses send the stop
    sequence and the sixth, finding its channel closed, makes the loop
    return: the sequence is sent whole, once, and nothing after it. *)
Theorem stop_sequence_then_return (start now : Z) (d0 : dripper)
    (evs more : list event) (stale answers : list string)
    (s : vars) (t : list action) :
  loop start now d0 evs = (waiting, s, t) ->
  choice_of answers = Some ctrlStop ->
  sent (done_of (loop start now d0
                   (evs ++ interrupt stale answers ::
                    repeat (pulse None) 6 ++ more))) =
    sent t ++ stop_lines /\
  status_of (loop start now d0
               (evs ++ interrupt stale answers ::
                repeat (pulse None) 6 ++ more)) = stopped.
Proof.
  intros H Hc. apply loop_waiting in H as (t' & Ht & ->).
  rewrite loop_sent, loop_status, turns_app, Ht.
  pose proof (on_signal_is_dialog stale answers s) as Hdlg.
  destruct s as [[gf q r] lq hm g].
  change (turns (interrupt stale answers :: repeat (pulse None) 6 ++ more))
    with (bind (on_signal stale answers)
               (fun _ => turns (repeat (pulse None) 6 ++ more))).
  revert Hdlg. unfold bind at 1. unfold on_signal. unfold choice_of in Hc.
  destruct (controlMenu answers) as [[c tm] rest]. simpl in Hc. subst c.
  rewrite stopGCode_eq. unfold_turn. simpl. intros Hdlg.
  unfold trace_of, result_of. cbn [fst snd]. split; [|reflexivity].
  rewrite sent_app. f_equal.
  match goal with
  | |- sent (_ :: _ :: (?A ++ ?B)) = _ =>
      change (sent ([RecvSig; SigReset] ++ A ++ B) = stop_lines);
      rewrite (sent_app [RecvSig; SigReset]), (sent_app A B),
        (sent_dialog A Hdlg)
  end.
  reflexivity.
Qed.

Lemma stop_sequence_then_return_witness :
  sent (done_of (loop 0 0 two_line_dripper
                   ([pulse None] ++ interrupt [] ["s"] ::
                    repeat (pulse None) 6 ++ [pulse None]))) =
    sent [SigNotify; Say log_start; RecvReady None true;
          RecvFile (Some (to_bytes "G28")); Send (to_bytes "G28")] ++
    stop_lines /\
  status_of (loop 0 0 two_line_dripper
               ([pulse None] ++ interrupt [] ["s"] ::
                repeat (pulse None) 6 ++ [pulse None])) = stopped.
Proof.
  apply (stop_sequence_then_return 0 0 two_line_dripper
           [pulse None] [pulse None] [] ["s"]
           (Vars (Dripper [to_bytes "G1 X10"] [] false) [] false file_feed)
           [SigNotify; Say log_start; RecvReady None true;
            RecvFile (Some (to_bytes "G28")); Send (to_bytes "G28")]).
  - reflexivity.
  - reflexivity.
Defined.
